(** * headlamp-sealed-secrets-plugin: result, validation and retry core

  A shallow embedding of [src/types.ts], [src/lib/validators.ts] and
  [src/lib/retry.ts], and the properties of them that the design
  document states.

  Conventions of the embedding:
  - a JavaScript string is its sequence of UTF-16 code units;
  - integer-valued JavaScript numbers (lengths, attempt counts, floored
    delays) are [Z]; the other numbers of [retry.ts] (delays before
    flooring, the multiplier, the random draw) are exact rationals [Q],
    so IEEE-754 rounding is not part of the model;
  - a computation that may throw returns a [completion]; a promise is
    represented by the way it settles;
  - where a thrown value may be one that [String] cannot render, the
    computation returns a [raising] and the promise is a [settled]. *)

From Stdlib Require Import List ZArith NArith QArith Qround Qminmax Lia Lqa Bool.
From Stdlib Require Import Ascii String DecimalString.
Import ListNotations.

Set Implicit Arguments.
Local Open Scope Z_scope.

(* ================================================================== *)
(** ** JavaScript strings and values *)
(* ================================================================== *)

Module Js.

(** A UTF-16 code unit. *)
Definition code_unit := N.

(** A JavaScript string. *)
Definition jsstring := list code_unit.

(** String literals of the source, written as Rocq strings. *)
Definition js (s : string) : jsstring :=
  List.map N_of_ascii (list_ascii_of_string s).

(** The line feed of the template literals. *)
Definition LF : jsstring := [10%N].

(** [s.length] *)
Definition length (s : jsstring) : Z := Z.of_nat (List.length s).

(** [!s] on a string: only the empty string is falsy. *)
Definition falsy (s : jsstring) : bool :=
  match s with [] => true | _ :: _ => false end.

(** WhiteSpace and LineTerminator of ECMAScript: what [trim] strips and
    what [\s] matches. *)
Definition is_whitespace (c : code_unit) : bool :=
  ((9 <=? c) && (c <=? 13) || (c =? 32) || (c =? 160) || (c =? 5760)
   || (8192 <=? c) && (c <=? 8202) || (c =? 8232) || (c =? 8233)
   || (c =? 8239) || (c =? 8287) || (c =? 12288) || (c =? 65279))%N.

Fixpoint trimStart (s : jsstring) : jsstring :=
  match s with
  | [] => []
  | c :: s' => if is_whitespace c then trimStart s' else s
  end.

Definition trimEnd (s : jsstring) : jsstring := rev (trimStart (rev s)).

(** [s.trim()] *)
Definition trim (s : jsstring) : jsstring := trimEnd (trimStart s).

(** [parts.join(sep)] *)
Fixpoint join (sep : jsstring) (parts : list jsstring) : jsstring :=
  match parts with
  | [] => []
  | [p] => p
  | p :: rest => p ++ sep ++ join sep rest
  end.

(** [s.split(sep)] for a one-unit separator. *)
Fixpoint split (sep : code_unit) (s : jsstring) : list jsstring :=
  match s with
  | [] => [[]]
  | c :: s' =>
      if (c =? sep)%N then [] :: split sep s'
      else match split sep s' with
           | [] => [[c]]
           | p :: ps => (c :: p) :: ps
           end
  end.

(** The parts, each after a separator: what follows the first part of a
    string that [split] cuts into them. *)
Definition dotted (sep : code_unit) (parts : list jsstring) : jsstring :=
  List.concat (List.map (cons sep) parts).

(** A string in which the separator does not occur. *)
Definition free_of (sep : code_unit) (s : jsstring) : bool :=
  forallb (fun c => negb (c =? sep)%N) s.

(** The decimal rendering of an integer-valued number in a template
    literal. *)
Definition show_int (n : Z) : jsstring :=
  js (NilZero.string_of_int (Z.to_int n)).

(** An [Error] object, as far as the code looks at it. *)
Record Error := { name : jsstring; message : jsstring }.

(** [new Error(msg)] *)
Definition new_Error (msg : jsstring) : Error :=
  {| name := js "Error"; message := msg |}.

(** [Error.prototype.toString] *)
Definition Error_toString (e : Error) : jsstring :=
  if falsy (name e) then message e
  else if falsy (message e) then name e
  else name e ++ js ": " ++ message e.

(** The values that reach the code as errors or thrown faults: strings,
    [Error] instances, and any other value, which is given by the string
    that [String(...)] renders it to.  (A value whose conversion to a
    string itself throws, such as an object without a prototype, is not
    among them: see [fault].) *)
Inductive value :=
| VString (s : jsstring)
| VError (e : Error)
| VOther (rendering : jsstring).

(** [String(v)] *)
Definition String_ (v : value) : jsstring :=
  match v with
  | VString s => s
  | VError e => Error_toString e
  | VOther r => r
  end.

(** The outcome of running code that may throw. *)
Inductive completion (A : Type) :=
| Normal (a : A)
| Throw (fault : value).
Arguments Normal {A} a.
Arguments Throw {A} fault.

Definition bind {A B} (c : completion A) (k : A -> completion B)
  : completion B :=
  match c with
  | Normal a => k a
  | Throw v => Throw v
  end.

(** [try { body } catch (error) { handler }] *)
Definition try_catch {A} (body : completion A)
           (handler : value -> completion A) : completion A :=
  match body with
  | Normal a => Normal a
  | Throw v => handler v
  end.

(** A promise, by the way it settles. *)
Inductive Promise (A : Type) :=
| Fulfilled (a : A)
| Rejected (reason : value).
Arguments Fulfilled {A} a.
Arguments Rejected {A} reason.

(** [await p] *)
Definition await {A} (p : Promise A) : completion A :=
  match p with
  | Fulfilled a => Normal a
  | Rejected v => Throw v
  end.

(** The promise an [async] function returns for its body. *)
Definition async {A} (body : completion A) : Promise A :=
  match body with
  | Normal a => Fulfilled a
  | Throw v => Rejected v
  end.

(** [s.includes(sub)]: [sub] occurs somewhere in [s]. *)
Fixpoint starts_with (sub s : jsstring) : bool :=
  match sub, s with
  | [], _ => true
  | a :: sub', b :: s' => (a =? b)%N && starts_with sub' s'
  | _ :: _, [] => false
  end.

Fixpoint includes (s sub : jsstring) : bool :=
  starts_with sub s
  || match s with
     | [] => false
     | _ :: s' => includes s' sub
     end.

(** A JavaScript number: a finite value, or one of the three that are
    not. *)
Inductive number :=
| Finite (q : Q)
| NaN
| Infinity
| NegInfinity.

(** [x < y] and [x > y] against a finite constant [y]. *)
Definition lt_const (x : number) (y : Q) : bool :=
  match x with
  | Finite q => negb (Qle_bool y q)
  | NegInfinity => true
  | NaN | Infinity => false
  end.

Definition gt_const (x : number) (y : Q) : bool :=
  match x with
  | Finite q => negb (Qle_bool q y)
  | Infinity => true
  | NaN | NegInfinity => false
  end.

(** [!x] on a number: zero and [NaN] are falsy. *)
Definition falsy_number (x : number) : bool :=
  match x with
  | Finite q => Qeq_bool q 0
  | NaN => true
  | Infinity | NegInfinity => false
  end.

(** A value of type [any], as far as [typeof], [in] and property access
    tell values apart.  An object is given by the properties that [in]
    finds in it and their values (the first binding of a name counts);
    accessors and proxies are not modelled. *)
#[warnings="-register-all"]
Inductive any :=
| AUndefined
| ANull
| ABoolean (b : bool)
| ANumber (n : number)
| AString (s : jsstring)
| AFunction
| AObject (props : list (jsstring * any)).

Fixpoint eqb_string (a b : jsstring) : bool :=
  match a, b with
  | [], [] => true
  | x :: a', y :: b' => (x =? y)%N && eqb_string a' b'
  | _, _ => false
  end.

(** The value bound to [name] in a list of properties. *)
Fixpoint lookup (name : jsstring) (props : list (jsstring * any))
  : option any :=
  match props with
  | [] => None
  | (n, v) :: rest => if eqb_string n name then Some v else lookup name rest
  end.

(** [typeof v === 'object'] *)
Definition typeof_object (v : any) : bool :=
  match v with
  | ANull | AObject _ => true
  | _ => false
  end.

(** [new TypeError(msg)] *)
Definition new_TypeError (msg : jsstring) : Error :=
  {| name := js "TypeError"; message := msg |}.

(** Anything that can be thrown, or carried as the error of a result: a
    value of [value], on which [String(...)] returns, or a value on which
    [String(...)] itself throws, given by what it throws then.  An object
    without a prototype makes [String] throw a [TypeError]; an object whose
    [toString] throws makes it throw whatever that throws. *)
Inductive fault :=
| Plain (v : value)
| Unprintable (raised : fault).

(** [Object.create(null)] *)
Definition object_without_prototype : fault :=
  Unprintable
    (Plain (VError (new_TypeError
                      (js "Cannot convert object to primitive value")))).

(** The outcome of running code that may throw any fault. *)
Inductive raising (A : Type) :=
| Returns (a : A)
| Raises (f : fault).
Arguments Returns {A} a.
Arguments Raises {A} f.

Definition and_next {A B} (c : raising A) (k : A -> raising B) : raising B :=
  match c with
  | Returns a => k a
  | Raises f => Raises f
  end.

(** [try { body } catch (error) { handler }] *)
Definition catching {A} (body : raising A) (handler : fault -> raising A)
  : raising A :=
  match body with
  | Returns a => Returns a
  | Raises f => handler f
  end.

(** [String(error)] on a fault. *)
Definition String_of (error : fault) : raising jsstring :=
  match error with
  | Plain v => Returns (String_ v)
  | Unprintable raised => Raises raised
  end.

(** A promise that may be rejected with any fault, by the way it
    settles. *)
Inductive settled (A : Type) :=
| Resolves (a : A)
| Rejects (reason : fault).
Arguments Resolves {A} a.
Arguments Rejects {A} reason.

(** [await p] *)
Definition awaited {A} (p : settled A) : raising A :=
  match p with
  | Resolves a => Returns a
  | Rejects f => Raises f
  end.

(** The promise an [async] function returns for its body. *)
Definition promised {A} (body : raising A) : settled A :=
  match body with
  | Returns a => Resolves a
  | Raises f => Rejects f
  end.

End Js.

(* ================================================================== *)
(** ** [src/types.ts] *)
(* ================================================================== *)

Module Types.
Import Js.

(** [Result<T, E>] *)
Inductive Result (T E : Type) :=
| Ok (value : T)
| Err (error : E).
Arguments Ok {T E} value.
Arguments Err {T E} error.

(** [result.ok] *)
Definition ok {T E} (r : Result T E) : bool :=
  match r with Ok _ => true | Err _ => false end.

(** The four brands.  A branded type is [string & { [Brand]: ... }]: the
    run-time representation is the string, the brand exists for the type
    checker only. *)
Inductive Brand := PlaintextBrand | EncryptedBrand | Base64Brand | PEMCertBrand.

Record Branded (b : Brand) := Brand_as { repr : jsstring }.
Arguments Brand_as b repr : clear implicits.
Arguments repr {b} _.

Definition PlaintextValue_t := Branded PlaintextBrand.
Definition EncryptedValue_t := Branded EncryptedBrand.
Definition Base64String_t := Branded Base64Brand.
Definition PEMCertificate_t := Branded PEMCertBrand.

Definition PlaintextValue (value : jsstring) : PlaintextValue_t :=
  Brand_as PlaintextBrand value.

Definition EncryptedValue (value : jsstring) : EncryptedValue_t :=
  Brand_as EncryptedBrand value.

Definition Base64String (value : jsstring) : Base64String_t :=
  Brand_as Base64Brand value.

Definition PEMCertificate (value : jsstring) : PEMCertificate_t :=
  Brand_as PEMCertBrand value.

(** [T extends string] *)
Class ExtendsString (T : Type) := as_string : T -> jsstring.

#[export] Instance string_extends_string : ExtendsString jsstring :=
  fun s => s.
#[export] Instance branded_extends_string (b : Brand)
  : ExtendsString (Branded b) := fun v => repr v.

Definition unwrap {T} `{ExtendsString T} (value : T) : jsstring :=
  as_string value.

(** [error instanceof Error ? error : new Error(String(error))]: the
    conversion to a string may throw. *)
Definition normalize_fault (error : fault) : raising Error :=
  match error with
  | Plain (VError e) => Returns e
  | _ => and_next (String_of error) (fun text => Returns (new_Error text))
  end.

Definition tryCatch {T} (fn : unit -> raising T)
  : raising (Result T Error) :=
  catching
    (and_next (fn tt) (fun x => Returns (Ok x)))
    (fun error =>
       and_next (normalize_fault error) (fun e => Returns (Err e))).

Definition tryCatchAsync {T} (fn : unit -> raising (settled T))
  : settled (Result T Error) :=
  promised
    (catching
       (and_next (and_next (fn tt) awaited) (fun value => Returns (Ok value)))
       (fun error =>
          and_next (normalize_fault error) (fun e => Returns (Err e)))).

End Types.

(* ================================================================== *)
(** ** Regular expressions *)
(* ================================================================== *)

Module Regex.
Import Js.

(** The regular expressions of [validators.ts] use no flags, no groups
    that are referred to and no assertions other than [^] at the start
    and [$] at the end, so [/^r$/.test(s)] holds exactly when the whole
    of [s] belongs to the language of [r]. *)
Inductive regex :=
| Void
| Eps
| Chr (p : code_unit -> bool)
| Cat (r1 r2 : regex)
| Alt (r1 r2 : regex)
| Star (r : regex).

(** [r?] *)
Definition Opt (r : regex) : regex := Alt r Eps.

(** [r+] *)
Definition Plus (r : regex) : regex := Cat r (Star r).

(** A literal run of characters. *)
Fixpoint Lit (s : jsstring) : regex :=
  match s with
  | [] => Eps
  | c :: s' => Cat (Chr (N.eqb c)) (Lit s')
  end.

Fixpoint nullable (r : regex) : bool :=
  match r with
  | Void => false
  | Eps => true
  | Chr _ => false
  | Cat r1 r2 => nullable r1 && nullable r2
  | Alt r1 r2 => nullable r1 || nullable r2
  | Star _ => true
  end.

(** Concatenation and alternation that drop dead branches. *)
Definition cat (r1 r2 : regex) : regex :=
  match r1, r2 with
  | Void, _ => Void
  | _, Void => Void
  | Eps, _ => r2
  | _, _ => Cat r1 r2
  end.

Definition alt (r1 r2 : regex) : regex :=
  match r1, r2 with
  | Void, _ => r2
  | _, Void => r1
  | _, _ => Alt r1 r2
  end.

(** What remains of [r] once [c] has been read. *)
Fixpoint deriv (c : code_unit) (r : regex) : regex :=
  match r with
  | Void => Void
  | Eps => Void
  | Chr p => if p c then Eps else Void
  | Cat r1 r2 =>
      if nullable r1 then alt (cat (deriv c r1) r2) (deriv c r2)
      else cat (deriv c r1) r2
  | Alt r1 r2 => alt (deriv c r1) (deriv c r2)
  | Star r1 => cat (deriv c r1) (Star r1)
  end.

(** [/^r$/.test(s)] *)
Definition test (r : regex) (s : jsstring) : bool :=
  nullable (fold_left (fun r c => deriv c r) s r).

(** The language of a regular expression. *)
Inductive Matches : regex -> jsstring -> Prop :=
| MEps : Matches Eps []
| MChr p c : p c = true -> Matches (Chr p) [c]
| MCat r1 r2 s1 s2 :
    Matches r1 s1 -> Matches r2 s2 -> Matches (Cat r1 r2) (s1 ++ s2)
| MAltL r1 r2 s : Matches r1 s -> Matches (Alt r1 r2) s
| MAltR r1 r2 s : Matches r2 s -> Matches (Alt r1 r2) s
| MStar0 r : Matches (Star r) []
| MStarS r s1 s2 :
    Matches r s1 -> Matches (Star r) s2 -> Matches (Star r) (s1 ++ s2).

(** Whether some prefix of [s] belongs to the language of [r]. *)
Fixpoint matches_prefix (r : regex) (s : jsstring) : bool :=
  nullable r
  || match s with
     | [] => false
     | c :: s' => matches_prefix (deriv c r) s'
     end.

(** [/r/.test(s)] for an [r] without anchors: a match may start at any
    position and end at any later one. *)
Fixpoint search (r : regex) (s : jsstring) : bool :=
  matches_prefix r s
  || match s with
     | [] => false
     | _ :: s' => search r s'
     end.

End Regex.

(* ================================================================== *)
(** ** [src/lib/validators.ts] *)
(* ================================================================== *)

Module Validators.
Import Js Regex.

(** [[a-z0-9]] *)
Definition lower_alnum (c : code_unit) : bool :=
  ((97 <=? c) && (c <=? 122) || (48 <=? c) && (c <=? 57))%N.

(** [[-a-z0-9]] *)
Definition dash_lower_alnum (c : code_unit) : bool :=
  ((c =? 45) || lower_alnum c)%N.

(** [\.] *)
Definition dot (c : code_unit) : bool := (c =? 46)%N.

(** [[a-z0-9]([-a-z0-9]*[a-z0-9])?] *)
Definition label_re : regex :=
  Cat (Chr lower_alnum)
      (Opt (Cat (Star (Chr dash_lower_alnum)) (Chr lower_alnum))).

(** [/^[a-z0-9]([-a-z0-9]*[a-z0-9])?(\.[a-z0-9]([-a-z0-9]*[a-z0-9])?)*$/] *)
Definition dns1123_re : regex :=
  Cat label_re (Star (Cat (Chr dot) label_re)).

Definition isValidK8sName (name : jsstring) : bool :=
  if falsy name || (length name =? 0) || (length name >? 253) then false
  else test dns1123_re name.

Definition BEGIN_CERTIFICATE : jsstring := js "-----BEGIN CERTIFICATE-----".
Definition END_CERTIFICATE : jsstring := js "-----END CERTIFICATE-----".

(** [[\s\S]] *)
Definition any_unit (c : code_unit) : bool :=
  is_whitespace c || negb (is_whitespace c).

(** [/^-----BEGIN CERTIFICATE-----\s+[\s\S]+\s+-----END CERTIFICATE-----\s*$/] *)
Definition pemRegex : regex :=
  Cat (Lit BEGIN_CERTIFICATE)
 (Cat (Plus (Chr is_whitespace))
 (Cat (Plus (Chr any_unit))
 (Cat (Plus (Chr is_whitespace))
 (Cat (Lit END_CERTIFICATE)
      (Star (Chr is_whitespace)))))).

(** The argument is typed [string], so [typeof value !== 'string'] is
    false. *)
Definition isValidPEM (value : jsstring) : bool :=
  if falsy value then false
  else test pemRegex (trim value).

Record ValidationResult :=
  { valid : bool; error : option jsstring }.

Definition validateSecretName (name : jsstring) : ValidationResult :=
  if falsy name || (length (trim name) =? 0) then
    {| valid := false; error := Some (js "Secret name is required") |}
  else if length name >? 253 then
    {| valid := false;
       error := Some (js "Secret name must be 253 characters or less") |}
  else if negb (isValidK8sName name) then
    {| valid := false;
       error := Some (js "Secret name must be lowercase alphanumeric, may contain hyphens and dots, and must start/end with alphanumeric") |}
  else {| valid := true; error := None |}.

Definition validateSecretValue (value : jsstring) : ValidationResult :=
  if falsy value || (length (trim value) =? 0) then
    {| valid := false; error := Some (js "Secret value is required") |}
  else if length value >? 1024 * 1024 then
    {| valid := false;
       error := Some (js "Secret value must be less than 1MB") |}
  else {| valid := true; error := None |}.

Definition validatePEMCertificate (pem : jsstring) : ValidationResult :=
  if falsy pem || (length (trim pem) =? 0) then
    {| valid := false; error := Some (js "Certificate is required") |}
  else if negb (isValidPEM pem) then
    {| valid := false;
       error := Some (js "Invalid PEM format. Must contain BEGIN CERTIFICATE and END CERTIFICATE markers") |}
  else {| valid := true; error := None |}.

(** [[a-zA-Z0-9]] *)
Definition alnum (c : code_unit) : bool :=
  ((97 <=? c) && (c <=? 122) || (65 <=? c) && (c <=? 90)
   || (48 <=? c) && (c <=? 57))%N.

(** [[-_.a-zA-Z0-9]] *)
Definition key_unit (c : code_unit) : bool :=
  ((c =? 45) || (c =? 95) || (c =? 46) || alnum c)%N.

(** [/^[a-zA-Z0-9]([-_.a-zA-Z0-9]*[a-zA-Z0-9])?$/] *)
Definition key_re : regex :=
  Cat (Chr alnum) (Opt (Cat (Star (Chr key_unit)) (Chr alnum))).

Definition isValidK8sKey (key : jsstring) : bool :=
  if falsy key || (length key =? 0) || (length key >? 253) then false
  else test key_re key.

(** The argument is typed [string], so [typeof value === 'string'] holds. *)
Definition isNonEmpty (value : jsstring) : bool :=
  length (trim value) >? 0.

Definition isValidNamespace (namespace : jsstring) : bool :=
  isValidK8sName namespace.

Definition validateSecretKey (key : jsstring) : ValidationResult :=
  if falsy key || (length (trim key) =? 0) then
    {| valid := false; error := Some (js "Key name is required") |}
  else if length key >? 253 then
    {| valid := false;
       error := Some (js "Key name must be 253 characters or less") |}
  else if negb (isValidK8sKey key) then
    {| valid := false;
       error := Some (js "Key name must be alphanumeric and may contain hyphens, underscores, and dots") |}
  else {| valid := true; error := None |}.

(** The argument of [validatePluginConfig]: each property may be absent. *)
Record PluginConfigInput := {
  controllerName : option jsstring;
  controllerNamespace : option jsstring;
  controllerPort : option number
}.

(** [!s] on an optional string: [undefined] and the empty string. *)
Definition missing (s : option jsstring) : bool :=
  match s with
  | None => true
  | Some s => falsy s
  end.

Definition validatePluginConfig (config : PluginConfigInput)
  : ValidationResult :=
  if missing (controllerName config)
     || negb (match controllerName config with
              | Some n => isValidK8sName n
              | None => false
              end) then
    {| valid := false; error := Some (js "Invalid controller name") |}
  else if missing (controllerNamespace config)
          || negb (match controllerNamespace config with
                   | Some n => isValidNamespace n
                   | None => false
                   end) then
    {| valid := false; error := Some (js "Invalid controller namespace") |}
  else if match controllerPort config with
          | None => true
          | Some port =>
              falsy_number port || lt_const port 1 || gt_const port 65535
          end then
    {| valid := false;
       error := Some (js "Invalid controller port (must be 1-65535)") |}
  else {| valid := true; error := None |}.

(** [name in v]: a [TypeError] when [v] is not an object.  (The text of
    the message differs between engines.) *)
Definition has_property (name : jsstring) (v : any) : completion bool :=
  match v with
  | AObject props =>
      Normal (match lookup name props with Some _ => true | None => false end)
  | _ =>
      Throw (VError (new_TypeError
                       (js "Cannot use 'in' operator to search for a key in a value that is not an object")))
  end.

(** [v.name], for the names the validators ask for: a [TypeError] on
    [undefined] and [null], [undefined] for a name that is not there. *)
Definition get_property (name : jsstring) (v : any) : completion any :=
  match v with
  | AObject props =>
      Normal (match lookup name props with Some x => x | None => AUndefined end)
  | AUndefined | ANull =>
      Throw (VError (new_TypeError
                       (js "Cannot read properties of undefined or null")))
  | _ => Normal AUndefined
  end.

(** [a && b] on booleans, the right operand evaluated only when the left
    one is true. *)
Definition and_then (a : completion bool) (b : completion bool)
  : completion bool :=
  bind a (fun x => if x then b else Normal false).

Definition validateSealedSecretInterface (obj : any) : completion bool :=
  and_then (Normal (typeof_object obj))
 (and_then (Normal (match obj with ANull => false | _ => true end))
 (and_then (has_property (js "spec") obj)
 (and_then (bind (get_property (js "spec") obj)
                 (fun spec => Normal (typeof_object spec)))
 (and_then (bind (get_property (js "spec") obj)
                 (has_property (js "encryptedData")))
           (bind (get_property (js "spec") obj)
                 (fun spec =>
                    bind (get_property (js "encryptedData") spec)
                         (fun data => Normal (typeof_object data)))))))).

End Validators.

(* ================================================================== *)
(** ** [src/lib/retry.ts] *)
(* ================================================================== *)

Module Retry.
Import Js Types.

(** [RetryOptions]: every property may be absent. *)
Record RetryOptions := {
  opt_maxAttempts : option Z;
  opt_initialDelayMs : option Q;
  opt_maxDelayMs : option Q;
  opt_backoffMultiplier : option Q;
  opt_useJitter : option bool;
  opt_isRetryable : option (Error -> bool)
}.

(** [Required<RetryOptions>] *)
Record RequiredRetryOptions := {
  maxAttempts : Z;
  initialDelayMs : Q;
  maxDelayMs : Q;
  backoffMultiplier : Q;
  useJitter : bool;
  isRetryable : Error -> bool
}.

Definition DEFAULT_RETRY_OPTIONS : RequiredRetryOptions := {|
  maxAttempts := 3;
  initialDelayMs := 1000%Q;
  maxDelayMs := 10000%Q;
  backoffMultiplier := 2%Q;
  useJitter := true;
  isRetryable := fun _ => true
|}.

(** [options = {}] *)
Definition no_options : RetryOptions := {|
  opt_maxAttempts := None;
  opt_initialDelayMs := None;
  opt_maxDelayMs := None;
  opt_backoffMultiplier := None;
  opt_useJitter := None;
  opt_isRetryable := None
|}.

Definition or_default {A} (given : option A) (default : A) : A :=
  match given with Some a => a | None => default end.

(** [{ ...defaults, ...options }] *)
Definition spread (defaults : RequiredRetryOptions) (options : RetryOptions)
  : RequiredRetryOptions := {|
  maxAttempts := or_default (opt_maxAttempts options) (maxAttempts defaults);
  initialDelayMs :=
    or_default (opt_initialDelayMs options) (initialDelayMs defaults);
  maxDelayMs := or_default (opt_maxDelayMs options) (maxDelayMs defaults);
  backoffMultiplier :=
    or_default (opt_backoffMultiplier options) (backoffMultiplier defaults);
  useJitter := or_default (opt_useJitter options) (useJitter defaults);
  isRetryable := or_default (opt_isRetryable options) (isRetryable defaults)
|}.

(** [{ ...options, isRetryable: p }] *)
Definition with_isRetryable (p : Error -> bool) (options : RetryOptions)
  : RetryOptions := {|
  opt_maxAttempts := opt_maxAttempts options;
  opt_initialDelayMs := opt_initialDelayMs options;
  opt_maxDelayMs := opt_maxDelayMs options;
  opt_backoffMultiplier := opt_backoffMultiplier options;
  opt_useJitter := opt_useJitter options;
  opt_isRetryable := Some p
|}.

(** Two option records that differ in [isRetryable] at most. *)
Definition agree_but_isRetryable (o1 o2 : RequiredRetryOptions) : Prop :=
  maxAttempts o1 = maxAttempts o2
  /\ initialDelayMs o1 = initialDelayMs o2
  /\ maxDelayMs o1 = maxDelayMs o2
  /\ backoffMultiplier o1 = backoffMultiplier o2
  /\ useJitter o1 = useJitter o2.

(** [calculateDelay], given the value [random] that [Math.random()] returns
    when it is called.  The arithmetic is that of exact rationals, not of
    doubles. *)
Definition calculateDelay (attempt : Z) (options : RequiredRetryOptions)
           (random : Q) : Z :=
  let delay :=
    (initialDelayMs options * (backoffMultiplier options) ^ attempt)%Q in
  let delay := Qmin delay (maxDelayMs options) in
  let delay :=
    if useJitter options then
      let jitterRange := (delay * (25 # 100))%Q in
      let jitter := (random * jitterRange * 2 - jitterRange)%Q in
      Qmax 0 (delay + jitter)%Q
    else delay in
  Qfloor delay.

Section RetryWithBackoff.

(** The type of the success values and the state the operation keeps
    between invocations. *)
Variables T St : Type.

(** One invocation of [operation()]: it may throw, or return a promise that
    settles one way or the other. *)
Variable operation : St -> completion (Promise (Result T value)) * St.

(** The values [Math.random()] returns, in the order of the calls. *)
Variable random_draws : nat -> Q.

(** What the function acts on: the operation's state, how often the
    operation has been invoked, the delays slept so far (latest first) and
    how many random numbers have been drawn. *)
Record World := {
  op_state : St;
  calls : nat;
  slept : list Z;
  drawn : nat
}.

(** [await operation()] *)
Definition invoke (w : World) : completion (Result T value) * World :=
  let (c, s) := operation (op_state w) in
  (bind c await,
   {| op_state := s; calls := S (calls w);
      slept := slept w; drawn := drawn w |}).

(** [calculateDelay(attempt, opts)] with its call of [Math.random()], which
    happens only under [useJitter]. *)
Definition drawDelay (attempt : Z) (opts : RequiredRetryOptions) (w : World)
  : Z * World :=
  if useJitter opts then
    (calculateDelay attempt opts (random_draws (drawn w)),
     {| op_state := op_state w; calls := calls w;
        slept := slept w; drawn := S (drawn w) |})
  else (calculateDelay attempt opts 0%Q, w).

(** [await sleep(ms)] *)
Definition sleep (ms : Z) (w : World) : World :=
  {| op_state := op_state w; calls := calls w;
     slept := ms :: slept w; drawn := drawn w |}.

(** [typeof result.error === 'string' ? result.error : String(result.error)] *)
Definition returned_message (error : value) : jsstring :=
  match error with
  | VString s => s
  | _ => String_ error
  end.

(** [error instanceof Error ? error.message : String(error)] *)
Definition thrown_message (error : value) : jsstring :=
  match error with
  | VError e => message e
  | _ => String_ error
  end.

(** [`Attempt ${attempt + 1}: ${errorMessage}`] *)
Definition attempt_line (attempt : Z) (errorMessage : jsstring) : jsstring :=
  js "Attempt " ++ show_int (attempt + 1) ++ js ": " ++ errorMessage.

(** [`Operation failed after ${opts.maxAttempts} attempts:\n${errors.join('\n')}`] *)
Definition failure_message (opts : RequiredRetryOptions)
           (errors : list jsstring) : jsstring :=
  js "Operation failed after " ++ show_int (maxAttempts opts)
     ++ js " attempts:" ++ LF ++ join LF errors.

(** The [for] loop of [retryWithBackoff] from the test of its condition on,
    with the [return] after it.  [fuel] bounds the number of iterations;
    [None] means that it ran out. *)
Fixpoint attempts (opts : RequiredRetryOptions) (fuel : nat) (attempt : Z)
         (errors : list jsstring) (w : World)
  : option (Result T jsstring * World) :=
  if attempt <? maxAttempts opts then
    match fuel with
    | O => None
    | S fuel' =>
        let (outcome, w) := invoke w in
        match outcome with
        | Normal (Ok v) => Some (Ok v, w)
        | Normal (Err error) =>
            let errorMessage := returned_message error in
            let errors := errors ++ [attempt_line attempt errorMessage] in
            let isLastAttempt := attempt =? maxAttempts opts - 1 in
            if isLastAttempt then Some (Err (failure_message opts errors), w)
            else
              let (delay, w) := drawDelay attempt opts w in
              attempts opts fuel' (attempt + 1) errors (sleep delay w)
        | Throw error =>
            let errorMessage := thrown_message error in
            let errors := errors ++ [attempt_line attempt errorMessage] in
            let isLastAttempt := attempt =? maxAttempts opts - 1 in
            if isLastAttempt then Some (Err (failure_message opts errors), w)
            else
              let (delay, w) := drawDelay attempt opts w in
              attempts opts fuel' (attempt + 1) errors (sleep delay w)
        end
    end
  else Some (Err (failure_message opts errors), w).

(** [retryWithBackoff(operation, options)]: the loop starts at attempt 0 with
    no errors; it makes at most [maxAttempts] iterations. *)
Definition retryWithBackoff (options : RetryOptions) (w : World)
  : option (Result T jsstring * World) :=
  let opts := spread DEFAULT_RETRY_OPTIONS options in
  attempts opts (Z.to_nat (maxAttempts opts)) 0 [] w.

(** The outcomes of the first [n] invocations of the operation from state
    [s], awaited. *)
Fixpoint outcomes (n : nat) (s : St) : list (completion (Result T value)) :=
  match n with
  | O => []
  | S n' =>
      let (c, s') := operation s in bind c await :: outcomes n' s'
  end.

(** The operation's state after [n] invocations from [s]. *)
Fixpoint state_after (n : nat) (s : St) : St :=
  match n with
  | O => s
  | S n' => state_after n' (snd (operation s))
  end.

(** The message [retryWithBackoff] records for an outcome that is not a
    success. *)
Definition recorded_message (c : completion (Result T value)) : jsstring :=
  match c with
  | Normal (Ok _) => []
  | Normal (Err error) => returned_message error
  | Throw error => thrown_message error
  end.

(** Whether an awaited outcome is the success variant. *)
Definition succeeded (c : completion (Result T value)) : bool :=
  match c with
  | Normal r => ok r
  | Throw _ => false
  end.

(** The lines of the aggregate: the messages numbered from [first + 1]. *)
Fixpoint numbered (first : Z) (messages : list jsstring) : list jsstring :=
  match messages with
  | [] => []
  | m :: rest => attempt_line first m :: numbered (first + 1) rest
  end.

End RetryWithBackoff.

(** [\d] *)
Definition digit (c : Js.code_unit) : bool := ((48 <=? c) && (c <=? 57))%N.

(** [/5\d{2}/] *)
Definition server_error_re : Regex.regex :=
  Regex.Cat (Regex.Chr (N.eqb 53))
            (Regex.Cat (Regex.Chr digit) (Regex.Chr digit)).

Definition isRetryableHttpError (error : Error) : bool :=
  let message := message error in
  if Regex.search server_error_re message then true
  else includes message (js "429")
       || includes message (js "408")
       || includes message (js "503")
       || includes message (js "504").

(** The delay [retryWithBackoff] sleeps after the failed attempt [attempt]
    when [draw] random numbers have been drawn before. *)
Definition scheduled_delay (random_draws : nat -> Q)
           (opts : RequiredRetryOptions) (attempt draw : nat) : Z :=
  calculateDelay (Z.of_nat attempt) opts
                 (if useJitter opts then random_draws draw else 0%Q).

(** The delays after the attempts [attempt], [attempt + 1], ... ,
    [attempt + n - 1], the first one first. *)
Definition scheduled_delays (random_draws : nat -> Q)
           (opts : RequiredRetryOptions) (attempt draw n : nat) : list Z :=
  List.map (fun i => scheduled_delay random_draws opts (attempt + i) (draw + i))
           (seq 0 n).

End Retry.

(* ================================================================== *)
(** ** [src/components/EncryptDialog.tsx]: the rows of the form *)
(* ================================================================== *)

Module EncryptDialog.
Import Js.

(** [SecretKeyValue] *)
Record SecretKeyValue := { kv_key : jsstring; kv_value : jsstring }.

(** [SecretKeyValue & { showValue: boolean }], a row of the form. *)
Record Row := { key : jsstring; value : jsstring; showValue : bool }.

(** [{ key: '', value: '', showValue: false }] *)
Definition blank_row : Row := {| key := []; value := []; showValue := false |}.

(** The state [keyValues] starts with. *)
Definition initial_keyValues : list Row := [blank_row].

(** [rows.filter((_, i) => keep(i))], [i] counting from [first]. *)
Fixpoint filter_index {A} (keep : Z -> bool) (first : Z) (rows : list A)
  : list A :=
  match rows with
  | [] => []
  | r :: rest =>
      if keep first then r :: filter_index keep (first + 1) rest
      else filter_index keep (first + 1) rest
  end.

(** Each handler is given by the state it passes to [setKeyValues]. *)
Definition handleAddKeyValue (keyValues : list Row) : list Row :=
  keyValues ++ [blank_row].

Definition handleRemoveKeyValue (index : Z) (keyValues : list Row)
  : list Row :=
  filter_index (fun i => negb (i =? index)) 0 keyValues.

(** [updated[index]], [undefined] out of range. *)
Definition at_index {A} (index : Z) (rows : list A) : option A :=
  if index <? 0 then None else nth_error rows (Z.to_nat index).

(** The rows with the one at position [index] changed. *)
Fixpoint change_at (change : Row -> Row) (index : nat) (rows : list Row)
  : list Row :=
  match rows, index with
  | [], _ => []
  | r :: rest, O => change r :: rest
  | r :: rest, S i => r :: change_at change i rest
  end.

(** [updated[index].field = ...] on a copy of the array: the row at
    [index] is changed; a [TypeError] when there is no such row.  (The copy
    shares its row objects with the previous state; what is given here is
    the state passed to [setKeyValues].) *)
Definition update_row (change : Row -> Row) (index : Z) (rows : list Row)
  : completion (list Row) :=
  match at_index index rows with
  | None =>
      Throw (VError (new_TypeError
                       (js "Cannot set properties of undefined")))
  | Some _ => Normal (change_at change (Z.to_nat index) rows)
  end.

Definition handleKeyChange (index : Z) (k : jsstring) (keyValues : list Row)
  : completion (list Row) :=
  update_row (fun r => {| key := k; value := value r;
                          showValue := showValue r |}) index keyValues.

Definition handleValueChange (index : Z) (v : jsstring)
           (keyValues : list Row) : completion (list Row) :=
  update_row (fun r => {| key := key r; value := v;
                          showValue := showValue r |}) index keyValues.

Definition toggleShowValue (index : Z) (keyValues : list Row)
  : completion (list Row) :=
  update_row (fun r => {| key := key r; value := value r;
                          showValue := negb (showValue r) |}) index keyValues.

(** [validKeyValues] of [handleCreate]: the rows with a key or a value,
    without [showValue]. *)
Definition validKeyValues (keyValues : list Row) : list SecretKeyValue :=
  List.map (fun kv => {| kv_key := key kv; kv_value := value kv |})
           (List.filter (fun kv => negb (falsy (key kv))
                                   || negb (falsy (value kv)))
                        keyValues).

(** Whether the delete button of a row is enabled:
    [disabled={keyValues.length === 1}]. *)
Definition delete_enabled (keyValues : list Row) : bool :=
  negb (Z.of_nat (List.length keyValues) =? 1).

End EncryptDialog.

(* ================================================================== *)
(** ** [src/lib/retry.ts]: the loop for every input its types admit *)
(* ================================================================== *)

(** [Retry] takes [maxAttempts] for an integer, an option for absent or
    given, and an error for a value that [String] renders.  Here the loop
    of [retryWithBackoff] is given again without these restrictions:
    [maxAttempts] is any number or [undefined], and an error or a thrown
    fault may be one on which [String] throws.  What [calculateDelay]
    computes does not influence the loop, and neither it nor [sleep]
    throws: a sleep is counted, its length is not recorded. *)

Module RetryWide.
Import Js Types.

(** An optional property of an options object: absent, or present with a
    value, which may be [undefined]. *)
Inductive property (A : Type) :=
| Absent
| Present (v : option A).
Arguments Absent {A}.
Arguments Present {A} v.

(** [{ ...DEFAULT_RETRY_OPTIONS, ...options }.maxAttempts]: a property that
    is present overrides the default 3, also with [undefined]. *)
Definition merged_maxAttempts (given : property number) : option number :=
  match given with
  | Absent => Some (Finite 3)
  | Present v => v
  end.

(** The largest count a number holds exactly: adding 1 to it gives it
    back. *)
Definition counter_limit : Z := 2 ^ 53.

(** [attempt + 1], in [attempt++] and in the attempt lines. *)
Definition plus_one (attempt : Z) : Z :=
  if attempt <? counter_limit then attempt + 1 else attempt.

(** [attempt < opts.maxAttempts]; [undefined] converts to [NaN], with
    which every comparison is false. *)
Definition below (attempt : Z) (maxAttempts : option number) : bool :=
  match maxAttempts with
  | Some (Finite q) => negb (Qle_bool q (inject_Z attempt))
  | Some Infinity => true
  | Some NaN | Some NegInfinity | None => false
  end.

(** [attempt === opts.maxAttempts - 1].  For a [maxAttempts] from 1 up to
    [counter_limit] the subtraction is exact; below 1 the difference is
    negative, rounded or not, and no attempt equals it.  Above
    [counter_limit] the difference is rounded to a number that is
    [counter_limit] only for [maxAttempts = counter_limit + 2] and larger
    otherwise, and the counter never exceeds [counter_limit]. *)
Definition is_last (attempt : Z) (maxAttempts : option number) : bool :=
  match maxAttempts with
  | Some (Finite q) =>
      if Qle_bool q (inject_Z counter_limit)
      then Qeq_bool (inject_Z attempt) (q - 1)
      else Qeq_bool q (inject_Z (counter_limit + 2))
           && (attempt =? counter_limit)
  | _ => false
  end.

(** [typeof result.error === 'string' ? result.error : String(result.error)] *)
Definition returned_message (error : fault) : raising jsstring :=
  match error with
  | Plain (VString s) => Returns s
  | _ => String_of error
  end.

(** [error instanceof Error ? error.message : String(error)] *)
Definition thrown_message (error : fault) : raising jsstring :=
  match error with
  | Plain (VError e) => Returns (message e)
  | _ => String_of error
  end.

(** [`Attempt ${attempt + 1}: ${errorMessage}`] *)
Definition attempt_line (attempt : Z) (errorMessage : jsstring) : jsstring :=
  js "Attempt " ++ show_int (plus_one attempt) ++ js ": " ++ errorMessage.

(** The lines of the aggregate for the messages of consecutive attempts,
    starting at attempt [first]. *)
Fixpoint numbered (first : Z) (messages : list jsstring) : list jsstring :=
  match messages with
  | [] => []
  | m :: rest => attempt_line first m :: numbered (first + 1) rest
  end.

Section RetryWithBackoff.

Variables T St : Type.

(** How a template literal prints a finite number. *)
Variable number_text : Q -> jsstring.

(** [opts.maxAttempts] *)
Variable maxAttempts : option number.

Variable operation : St -> raising (settled (Result T fault)) * St.

Record World := {
  op_state : St;
  calls : nat;
  sleeps : nat
}.

(** [`${opts.maxAttempts}`] *)
Definition limit_text : jsstring :=
  match maxAttempts with
  | None => js "undefined"
  | Some NaN => js "NaN"
  | Some Infinity => js "Infinity"
  | Some NegInfinity => js "-Infinity"
  | Some (Finite q) => number_text q
  end.

(** [`Operation failed after ${opts.maxAttempts} attempts:\n${errors.join('\n')}`] *)
Definition failure_message (errors : list jsstring) : jsstring :=
  js "Operation failed after " ++ limit_text ++ js " attempts:" ++ LF
     ++ join LF errors.

(** [await operation()] *)
Definition invoke (w : World) : raising (Result T fault) * World :=
  let (c, s) := operation (op_state w) in
  (and_next c awaited,
   {| op_state := s; calls := S (calls w); sleeps := sleeps w |}).

(** [calculateDelay(attempt, opts)] and [await sleep(delay)] *)
Definition sleep (w : World) : World :=
  {| op_state := op_state w; calls := calls w; sleeps := S (sleeps w) |}.

(** The [for] loop of [retryWithBackoff] from the test of its condition on,
    with the [return] after it.  The result is the way the promise of the
    function settles; [None] means that the fuel ran out. *)
Fixpoint attempts (fuel : nat) (attempt : Z) (errors : list jsstring)
         (w : World) : option (settled (Result T jsstring) * World) :=
  if below attempt maxAttempts then
    match fuel with
    | O => None
    | S fuel' =>
        let (outcome, w) := invoke w in
        (* what the [try] block and the [catch] clause both do with the
           message of the attempt *)
        let record errorMessage :=
          let errors := errors ++ [attempt_line attempt errorMessage] in
          if is_last attempt maxAttempts
          then Some (Resolves (Err (failure_message errors)), w)
          else attempts fuel' (plus_one attempt) errors (sleep w) in
        (* the [catch] clause *)
        let caught error :=
          match thrown_message error with
          | Returns errorMessage => record errorMessage
          | Raises raised => Some (Rejects raised, w)
          end in
        match outcome with
        | Returns (Ok v) => Some (Resolves (Ok v), w)
        | Returns (Err error) =>
            match returned_message error with
            | Returns errorMessage => record errorMessage
            | Raises raised => caught raised
            end
        | Raises error => caught error
        end
    end
  else Some (Resolves (Err (failure_message errors)), w).

(** How an attempt ends: with a success, with a message recorded for the
    aggregate, or with a fault that leaves the function. *)
Inductive verdict :=
| Succeeded (v : T)
| Recorded (errorMessage : jsstring)
| Escaped (raised : fault).

Definition caught_verdict (error : fault) : verdict :=
  match thrown_message error with
  | Returns errorMessage => Recorded errorMessage
  | Raises raised => Escaped raised
  end.

Definition verdict_of (outcome : raising (Result T fault)) : verdict :=
  match outcome with
  | Returns (Ok v) => Succeeded v
  | Returns (Err error) =>
      match returned_message error with
      | Returns errorMessage => Recorded errorMessage
      | Raises raised => caught_verdict raised
      end
  | Raises error => caught_verdict error
  end.

Definition succeeded (v : verdict) : bool :=
  match v with Succeeded _ => true | _ => false end.

Definition escaped (v : verdict) : bool :=
  match v with Escaped _ => true | _ => false end.

(** The verdicts of the first [n] invocations of the operation from state
    [s]. *)
Fixpoint verdicts (n : nat) (s : St) : list verdict :=
  match n with
  | O => []
  | S n' =>
      let (c, s') := operation s in
      verdict_of (and_next c awaited) :: verdicts n' s'
  end.

(** The operation's state after [n] invocations from [s]. *)
Fixpoint state_after (n : nat) (s : St) : St :=
  match n with
  | O => s
  | S n' => state_after n' (snd (operation s))
  end.

(** The world after [n] invocations and [m] sleeps. *)
Definition later (n m : nat) (w : World) : World :=
  {| op_state := state_after n (op_state w);
     calls := calls w + n;
     sleeps := sleeps w + m |}.

End RetryWithBackoff.

Arguments Succeeded {T} v.
Arguments Recorded {T} errorMessage.
Arguments Escaped {T} raised.

(** How an attempt that does not record a message settles the promise. *)
Definition settles {T} (v : verdict T) (p : settled (Result T jsstring))
  : Prop :=
  match v with
  | Succeeded x => p = Resolves (Ok x)
  | Escaped g => p = Rejects g
  | Recorded _ => False
  end.

(** [retryWithBackoff(operation, options)], by the [maxAttempts] the caller
    gives. *)
Definition retryWithBackoff {T St} (number_text : Q -> jsstring)
           (operation : St -> raising (settled (Result T fault)) * St)
           (given : property number) (fuel : nat) (w : World St)
  : option (settled (Result T jsstring) * World St) :=
  attempts number_text (merged_maxAttempts given) operation fuel 0 [] w.

(** The inputs of [Retry] as inputs of this module: a result, an operation
    and the [maxAttempts] of an options record, and the world with its
    sleeps counted. *)
Definition plain_result {T} (r : Result T value) : Result T fault :=
  match r with
  | Ok v => Ok v
  | Err error => Err (Plain error)
  end.

Definition plain_operation {T St}
           (operation : St -> completion (Promise (Result T value)) * St)
           (s : St) : raising (settled (Result T fault)) * St :=
  let (c, s') := operation s in
  (match c with
   | Normal (Fulfilled r) => Returns (Resolves (plain_result r))
   | Normal (Rejected reason) => Returns (Rejects (Plain reason))
   | Throw error => Raises (Plain error)
   end, s').

Definition given_maxAttempts (options : Retry.RetryOptions)
  : property number :=
  match Retry.opt_maxAttempts options with
  | None => Absent
  | Some n => Present (Some (Finite (inject_Z n)))
  end.

Definition counted {St} (w : Retry.World St) : World St :=
  {| op_state := Retry.op_state w;
     calls := Retry.calls w;
     sleeps := List.length (Retry.slept w) |}.

Definition counted_result {T St} (r : Result T jsstring * Retry.World St)
  : settled (Result T jsstring) * World St :=
  (Resolves (fst r), counted (snd r)).

End RetryWide.

(* ================================================================== *)
(** ** The validation rules as the design document words them *)
(* ================================================================== *)

Module Rules.
Import Js Validators.

(** A label: lowercase alphanumerics and hyphens, starting and ending with
    a lowercase alphanumeric. *)
Definition is_label (l : jsstring) : bool :=
  match l with
  | [] => false
  | c :: _ =>
      lower_alnum c && lower_alnum (last l 0%N) && forallb dash_lower_alnum l
  end.

(** The DNS-subdomain grammar: labels separated by dots. *)
Definition is_dns_subdomain (name : jsstring) : bool :=
  forallb is_label (split 46%N name).

(** The size of a string in bytes, in UTF-8 (the encoding in which a value
    is stored in a Secret): one byte below U+0080, two below U+0800, four
    for a surrogate pair, three otherwise (an unpaired surrogate is encoded
    as U+FFFD). *)
Definition is_high_surrogate (c : code_unit) : bool :=
  ((55296 <=? c) && (c <=? 56319))%N.

Definition is_low_surrogate (c : code_unit) : bool :=
  ((56320 <=? c) && (c <=? 57343))%N.

Fixpoint utf8_length (s : jsstring) : Z :=
  match s with
  | [] => 0
  | c :: s' =>
      if (c <? 128)%N then 1 + utf8_length s'
      else if (c <? 2048)%N then 2 + utf8_length s'
      else if is_high_surrogate c then
        match s' with
        | d :: s'' =>
            if is_low_surrogate d then 4 + utf8_length s''
            else 3 + utf8_length s'
        | [] => 3
        end
      else 3 + utf8_length s'
  end.

(** The base64 alphabet, with its padding character. *)
Definition is_base64_unit (c : code_unit) : bool :=
  ((65 <=? c) && (c <=? 90) || (97 <=? c) && (c <=? 122)
   || (48 <=? c) && (c <=? 57) || (c =? 43) || (c =? 47) || (c =? 61))%N.

(** [strip_prefix p s] is what follows [p] in [s]. *)
Fixpoint strip_prefix (p s : jsstring) : option jsstring :=
  match p, s with
  | [], _ => Some s
  | a :: p', b :: s' => if (a =? b)%N then strip_prefix p' s' else None
  | _ :: _, [] => None
  end.

(** [strip_suffix p s] is what precedes [p] in [s]. *)
Definition strip_suffix (p s : jsstring) : option jsstring :=
  option_map (@rev code_unit) (strip_prefix (rev p) (rev s)).

(** A string that is, once trimmed, one certificate envelope around base64
    content: the BEGIN line, base64 text (possibly broken into lines), the
    END line. *)
Definition is_base64_envelope (s : jsstring) : bool :=
  match strip_prefix BEGIN_CERTIFICATE (trim s) with
  | None => false
  | Some rest =>
      match strip_suffix END_CERTIFICATE rest with
      | None => false
      | Some content =>
          forallb (fun c => is_base64_unit c || is_whitespace c) content
          && existsb is_base64_unit content
      end
  end.

(** A string that starts and ends with a unit of [edge] and is made of
    units of [inner]. *)
Definition framed (edge inner : code_unit -> bool) (s : jsstring) : bool :=
  match s with
  | [] => false
  | c :: _ => edge c && edge (last s 0%N) && forallb inner s
  end.

(** A key name: alphanumerics, hyphens, underscores and dots, starting and
    ending with an alphanumeric. *)
Definition is_key (key : jsstring) : bool := framed alnum key_unit key.

(** A string of ASCII characters. *)
Definition is_ascii (s : jsstring) : bool := forallb (fun c => (c <? 128)%N) s.

End Rules.

(* ================================================================== *)
(** ** Sample inputs *)
(* ================================================================== *)

Module Samples.
Import Js Types Validators Retry.

(** An envelope whose content is not base64. *)
Definition pem_not_base64 : jsstring :=
  BEGIN_CERTIFICATE ++ LF ++ js "!!!" ++ LF ++ END_CERTIFICATE.

(** An envelope around one line of base64. *)
Definition pem_small : jsstring :=
  BEGIN_CERTIFICATE ++ LF ++ js "QUJD" ++ LF ++ END_CERTIFICATE.

(** 600,000 times U+00E9 (e with acute accent): 600,000 code units,
    1,200,000 bytes. *)
Definition accented_value : jsstring := repeat 233%N (N.to_nat 600000).

(** The stubs of [retry.test.ts].  The state counts the invocations. *)
Definition alwaysFail (s : nat)
  : completion (Promise (Result jsstring value)) * nat :=
  (Normal (Fulfilled (Err (VString (js "persistent error")))), S s).

Definition failTwiceThenSucceed (s : nat)
  : completion (Promise (Result jsstring value)) * nat :=
  (match s with
   | 0%nat => Normal (Fulfilled (Err (VString (js "error1"))))
   | 1%nat => Normal (Fulfilled (Err (VString (js "error2"))))
   | _ => Normal (Fulfilled (Ok (js "success")))
   end, S s).

(** [Math.random()] returning 0.5 every time. *)
Definition half (n : nat) : Q := 1 # 2.

Definition fresh : World nat :=
  {| op_state := 0%nat; calls := 0; slept := []; drawn := 0 |}.

(** [{ maxAttempts: n, initialDelayMs: 100 }] *)
Definition attempts_of (n : Z) : RetryOptions := {|
  opt_maxAttempts := Some n;
  opt_initialDelayMs := Some 100%Q;
  opt_maxDelayMs := None;
  opt_backoffMultiplier := None;
  opt_useJitter := None;
  opt_isRetryable := None
|}.

(** [{ controllerName: 'sealed-secrets-controller', controllerNamespace:
    'kube-system', controllerPort: 8080.5 }] *)
Definition config_fractional_port : PluginConfigInput := {|
  controllerName := Some (js "sealed-secrets-controller");
  controllerNamespace := Some (js "kube-system");
  controllerPort := Some (Finite (16161 # 2))
|}.

(** [{ spec: null }] *)
Definition object_with_null_spec : any := AObject [(js "spec", ANull)].

(** [{ spec: { encryptedData: null } }] *)
Definition object_with_null_data : any :=
  AObject [(js "spec", AObject [(js "encryptedData", ANull)])].

(** The stub of "should handle function that throws": the promise is
    rejected with an [Error] every time. *)
Definition alwaysRejects (s : nat)
  : completion (Promise (Result jsstring value)) * nat :=
  (Normal (Rejected (VError (new_Error (js "Network error")))), S s).

(** [{ maxAttempts: n, useJitter: false }] *)
Definition plain_attempts (n : Z) : RetryOptions := {|
  opt_maxAttempts := Some n;
  opt_initialDelayMs := None;
  opt_maxDelayMs := None;
  opt_backoffMultiplier := None;
  opt_useJitter := Some false;
  opt_isRetryable := None
|}.

(** An error whose message has no status code in it, only a duration. *)
Definition slow_request : Error := new_Error (js "Request took 1500 ms").

(** An error with a status code, and the same message quoted in a longer
    one. *)
Definition unavailable : Error := new_Error (js "HTTP 503").

Definition quoted_unavailable : Error :=
  new_Error (js "Attempt 1: HTTP 503; giving up").

(** A form with two rows filled in, the second one shown. *)
Definition two_rows : list EncryptDialog.Row :=
  [ {| EncryptDialog.key := js "username"; EncryptDialog.value := js "admin";
       EncryptDialog.showValue := false |};
    {| EncryptDialog.key := js "password"; EncryptDialog.value := js "p@ss";
       EncryptDialog.showValue := true |} ].

(** Stubs for the loop of [RetryWide]. *)

(** An operation that resolves to [Err 'down'] every time. *)
Definition alwaysDown (s : nat)
  : raising (settled (Result unit fault)) * nat :=
  (Returns (Resolves (Err (Plain (VString (js "down"))))), S s).

(** An operation whose promise is rejected with ['busy'] the first time and
    that throws an object without a prototype from then on. *)
Definition busyThenBare (s : nat)
  : raising (settled (Result unit fault)) * nat :=
  (match s with
   | O => Returns (Rejects (Plain (VString (js "busy"))))
   | _ => Raises object_without_prototype
   end, S s).

(** An operation that resolves to [Err 'down'] once and to [Ok] then. *)
Definition downThenUp (s : nat)
  : raising (settled (Result unit fault)) * nat :=
  (match s with
   | O => Returns (Resolves (Err (Plain (VString (js "down")))))
   | _ => Returns (Resolves (Ok tt))
   end, S s).

Definition untouched : RetryWide.World nat :=
  {| RetryWide.op_state := O; RetryWide.calls := O; RetryWide.sleeps := O |}.

(** The text of a number that is an integer below [10^21]. *)
Definition integer_text (q : Q) : jsstring := show_int (Qfloor q).

(** The text of the number [2.5]. *)
Definition text_of_2_5 (q : Q) : jsstring := js "2.5".

End Samples.

(* ================================================================== *)
(** ** Properties of [src/types.ts] *)
(* ================================================================== *)

Module TypesSpec.
Import Js Types.

(** C9: each branded-type constructor ([PlaintextValue], [EncryptedValue],
    [Base64String], [PEMCertificate]) accepts every string and keeps it as
    the representation of the branded value, and [unwrap] returns the
    representation as it is; so unwrapping a freshly branded string gives
    the string back, for each of the four brands, and [unwrap] of a plain
    string is that string. *)
Theorem brand_round_trip (s : jsstring) :
  (repr (PlaintextValue s) = s /\ repr (EncryptedValue s) = s
   /\ repr (Base64String s) = s /\ repr (PEMCertificate s) = s)
  /\ unwrap s = s
  /\ unwrap (PlaintextValue s) = s
  /\ unwrap (EncryptedValue s) = s
  /\ unwrap (Base64String s) = s
  /\ unwrap (PEMCertificate s) = s.
Proof.
  repeat split.
Qed.

(** C8 at a thrown object without a prototype: in the catch block
    [String(error)] throws a [TypeError], which nothing catches, so
    [tryCatch] throws it instead of returning [Err], and the promise of
    [tryCatchAsync] is rejected with it, whether the callable throws the
    object or returns a promise rejected with it. *)
Theorem tryCatch_lets_conversion_fault_out :
  let type_error :=
    Plain (VError (new_TypeError
                     (js "Cannot convert object to primitive value"))) in
  tryCatch (fun _ : unit => @Raises nat object_without_prototype)
  = Raises type_error
  /\ tryCatchAsync (fun _ : unit => @Raises (settled nat)
                                            object_without_prototype)
     = Rejects type_error
  /\ tryCatchAsync (fun _ : unit =>
                      Returns (@Rejects nat object_without_prototype))
     = Rejects type_error.
Proof.
  repeat split.
Qed.

(** What [tryCatch] and [tryCatchAsync] return, fault by fault: [Ok] of
    the result; [Err] of a thrown [Error] itself; [Err] of a new [Error]
    whose message is the rendering of a thrown string or other value that
    [String] renders; and for a thrown value on which [String] throws,
    nothing is returned: what [String] threw is thrown on (the promise is
    rejected with it).  A promise rejected is treated as a throw. *)
Theorem tryCatch_fault_by_fault (T : Type)
        (fn : unit -> raising T) (afn : unit -> raising (settled T)) :
  tryCatch fn =
    match fn tt with
    | Returns x => Returns (Ok x)
    | Raises (Plain (VError e)) => Returns (Err e)
    | Raises (Plain (VString s)) => Returns (Err (new_Error s))
    | Raises (Plain (VOther r)) => Returns (Err (new_Error r))
    | Raises (Unprintable raised) => Raises raised
    end
  /\ tryCatchAsync afn =
    match afn tt with
    | Returns (Resolves x) => Resolves (Ok x)
    | Returns (Rejects (Plain (VError e))) | Raises (Plain (VError e)) =>
        Resolves (Err e)
    | Returns (Rejects (Plain (VString s))) | Raises (Plain (VString s)) =>
        Resolves (Err (new_Error s))
    | Returns (Rejects (Plain (VOther r))) | Raises (Plain (VOther r)) =>
        Resolves (Err (new_Error r))
    | Returns (Rejects (Unprintable raised)) | Raises (Unprintable raised) =>
        Rejects raised
    end.
Proof.
  unfold tryCatch, tryCatchAsync. split.
  - destruct (fn tt) as [x | [[s | e | r] | raised]]; reflexivity.
  - destruct (afn tt) as [[x | [[s | e | r] | raised]] | [[s | e | r] | raised]];
      reflexivity.
Qed.

End TypesSpec.

(* ================================================================== *)
(** ** The matcher decides the language *)
(* ================================================================== *)

Module RegexFacts.
Import Js Regex.

Create HintDb regex.
#[local] Hint Constructors Matches : regex.

Ltac invert_matches H := inversion H; subst; clear H.

Lemma matches_void (s : jsstring) : ~ Matches Void s.
Proof. intros H. inversion H. Qed.

Lemma matches_eps (s : jsstring) : Matches Eps s <-> s = [].
Proof.
  split; intros H; [now invert_matches H | subst; auto with regex].
Qed.

Lemma matches_chr (p : code_unit -> bool) (s : jsstring) :
  Matches (Chr p) s <-> exists c, s = [c] /\ p c = true.
Proof.
  split.
  - intros H. invert_matches H. eauto.
  - intros (c & -> & Hp). auto with regex.
Qed.

Lemma matches_cat (r1 r2 : regex) (s : jsstring) :
  Matches (Cat r1 r2) s
  <-> exists s1 s2, s = s1 ++ s2 /\ Matches r1 s1 /\ Matches r2 s2.
Proof.
  split.
  - intros H. invert_matches H. eauto.
  - intros (s1 & s2 & -> & H1 & H2). auto with regex.
Qed.

Lemma matches_alt (r1 r2 : regex) (s : jsstring) :
  Matches (Alt r1 r2) s <-> Matches r1 s \/ Matches r2 s.
Proof.
  split.
  - intros H. invert_matches H; auto.
  - intros [H | H]; auto with regex.
Qed.

Lemma matches_opt (r : regex) (s : jsstring) :
  Matches (Opt r) s <-> Matches r s \/ s = [].
Proof.
  unfold Opt. rewrite matches_alt, matches_eps. reflexivity.
Qed.

(** A non-empty word of [r*] starts with a non-empty word of [r]. *)
Lemma matches_star_cons (r : regex) (c : code_unit) (s : jsstring) :
  Matches (Star r) (c :: s)
  <-> exists s1 s2,
      s = s1 ++ s2 /\ Matches r (c :: s1) /\ Matches (Star r) s2.
Proof.
  split.
  - intros H. remember (Star r) as r' eqn:Er. remember (c :: s) as t eqn:Et.
    revert s Et.
    induction H as [| | | | | | r0 s1 s2 H1 _ H2 IH2]; intros s' Et;
      try discriminate.
    injection Er as ->.
    destruct s1 as [| c1 s1].
    + apply IH2; auto.
    + cbn in Et. injection Et as -> <-. eauto.
  - intros (s1 & s2 & -> & H1 & H2).
    change (c :: s1 ++ s2) with ((c :: s1) ++ s2). auto with regex.
Qed.

Lemma nullable_spec (r : regex) : nullable r = true <-> Matches r [].
Proof.
  split.
  - induction r as [| | p | r1 IH1 r2 IH2 | r1 IH1 r2 IH2 | r IH]; cbn;
      intros H; try discriminate; auto with regex.
    + apply andb_true_iff in H. destruct H.
      change (@nil code_unit) with (@nil code_unit ++ []). auto with regex.
    + apply orb_true_iff in H. destruct H; auto with regex.
  - intros H. remember (@nil code_unit) as s eqn:Es.
    induction H as [| p c Hp | r1 r2 s1 s2 _ IH1 _ IH2 | | | |]; cbn; auto.
    + discriminate.
    + apply app_eq_nil in Es. destruct Es.
      rewrite IH1, IH2; auto.
    + rewrite IHMatches; auto.
    + rewrite IHMatches; auto using orb_true_r.
Qed.

Lemma cat_cases (r1 r2 : regex) :
  (cat r1 r2 = Void /\ (r1 = Void \/ r2 = Void))
  \/ (cat r1 r2 = r2 /\ r1 = Eps)
  \/ cat r1 r2 = Cat r1 r2.
Proof.
  destruct r1, r2; cbn; auto.
Qed.

Lemma alt_cases (r1 r2 : regex) :
  (alt r1 r2 = r2 /\ r1 = Void)
  \/ (alt r1 r2 = r1 /\ r2 = Void)
  \/ alt r1 r2 = Alt r1 r2.
Proof.
  destruct r1, r2; cbn; auto.
Qed.

Lemma matches_smart_cat (r1 r2 : regex) (s : jsstring) :
  Matches (cat r1 r2) s <-> Matches (Cat r1 r2) s.
Proof.
  destruct (cat_cases r1 r2) as [[-> Hv] | [[-> ->] | ->]];
    [| | reflexivity]; rewrite matches_cat.
  - split; [intros H; now apply matches_void in H |].
    intros (s1 & s2 & _ & H1 & H2).
    destruct Hv; subst; exfalso; eapply matches_void; eauto.
  - split.
    + intros H. exists [], s. auto with regex.
    + intros (s1 & s2 & -> & H1 & H2).
      apply matches_eps in H1. now subst.
Qed.

Lemma matches_smart_alt (r1 r2 : regex) (s : jsstring) :
  Matches (alt r1 r2) s <-> Matches (Alt r1 r2) s.
Proof.
  destruct (alt_cases r1 r2) as [[-> ->] | [[-> ->] | ->]];
    [| | reflexivity]; rewrite matches_alt.
  - split; [auto | intros [H | H]; [now apply matches_void in H | auto]].
  - split; [auto | intros [H | H]; [auto | now apply matches_void in H]].
Qed.

Lemma matches_cat_cons (r1 r2 : regex) (c : code_unit) (s : jsstring) :
  Matches (Cat r1 r2) (c :: s)
  <-> (exists s1 s2, s = s1 ++ s2 /\ Matches r1 (c :: s1) /\ Matches r2 s2)
      \/ (Matches r1 [] /\ Matches r2 (c :: s)).
Proof.
  rewrite matches_cat. split.
  - intros (s1 & s2 & E & H1 & H2). destruct s1 as [| c1 s1]; cbn in E.
    + subst. auto.
    + injection E as <- ->. left. eauto.
  - intros [(s1 & s2 & -> & H1 & H2) | [H1 H2]].
    + exists (c :: s1), s2. auto.
    + exists [], (c :: s). auto.
Qed.

Lemma deriv_spec (r : regex) :
  forall (c : code_unit) (s : jsstring),
    Matches (deriv c r) s <-> Matches r (c :: s).
Proof.
  induction r as [| | p | r1 IH1 r2 IH2 | r1 IH1 r2 IH2 | r IH];
    intros c s; cbn [deriv].
  - split; intros H; now apply matches_void in H.
  - split; intros H; [now apply matches_void in H | now invert_matches H].
  - rewrite matches_chr. destruct (p c) eqn:Hp.
    + rewrite matches_eps. split.
      * intros ->. eauto.
      * intros (c' & E & _). now injection E.
    + split; [intros H; now apply matches_void in H |].
      intros (c' & E & Hp'). injection E as <- _. congruence.
  - rewrite matches_cat_cons.
    destruct (nullable r1) eqn:Hn.
    + rewrite matches_smart_alt, matches_alt, matches_smart_cat, matches_cat.
      rewrite IH2. apply nullable_spec in Hn.
      split.
      * intros [(s1 & s2 & -> & H1 & H2) | H]; [left | right; auto].
        apply IH1 in H1. eauto.
      * intros [(s1 & s2 & -> & H1 & H2) | [_ H]]; [left | right; auto].
        apply IH1 in H1. eauto.
    + rewrite matches_smart_cat, matches_cat. split.
      * intros (s1 & s2 & -> & H1 & H2). apply IH1 in H1. left. eauto.
      * intros [(s1 & s2 & -> & H1 & H2) | [H _]].
        -- apply IH1 in H1. eauto.
        -- apply nullable_spec in H. congruence.
  - rewrite matches_smart_alt, !matches_alt, IH1, IH2. reflexivity.
  - rewrite matches_smart_cat, matches_cat, matches_star_cons. split.
    + intros (s1 & s2 & -> & H1 & H2). apply IH in H1. eauto.
    + intros (s1 & s2 & -> & H1 & H2). apply IH in H1. eauto.
Qed.

(** [test] accepts exactly the words of the language. *)
Lemma test_spec (r : regex) (s : jsstring) :
  test r s = true <-> Matches r s.
Proof.
  unfold test. revert r.
  induction s as [| c s IH]; intros r; cbn [fold_left].
  - apply nullable_spec.
  - rewrite IH. apply deriv_spec.
Qed.

(** *** The shapes the validators use *)

Lemma matches_lit (l s : jsstring) : Matches (Lit l) s <-> s = l.
Proof.
  revert s. induction l as [| c l IH]; intros s; cbn [Lit].
  - apply matches_eps.
  - rewrite matches_cat. split.
    + intros (s1 & s2 & -> & H1 & H2).
      apply matches_chr in H1. destruct H1 as (c' & -> & Hc).
      apply N.eqb_eq in Hc. subst c'. apply IH in H2. now subst.
    + intros ->. exists [c], l. repeat split.
      * apply MChr, N.eqb_refl.
      * now apply IH.
Qed.

Lemma matches_star_chr (p : code_unit -> bool) (s : jsstring) :
  Matches (Star (Chr p)) s <-> forallb p s = true.
Proof.
  induction s as [| c s IH]; cbn [forallb].
  - split; auto with regex.
  - rewrite matches_star_cons, andb_true_iff, <- IH. split.
    + intros (s1 & s2 & -> & H1 & H2).
      apply matches_chr in H1. destruct H1 as (c' & E & Hp).
      injection E as E1 E2. subst c' s1. auto.
    + intros [Hp H]. exists [], s. auto with regex.
Qed.

Lemma matches_plus_chr (p : code_unit -> bool) (s : jsstring) :
  Matches (Plus (Chr p)) s <-> s <> [] /\ forallb p s = true.
Proof.
  unfold Plus. rewrite matches_cat. split.
  - intros (s1 & s2 & -> & H1 & H2).
    apply matches_chr in H1. destruct H1 as (c & -> & Hp).
    apply matches_star_chr in H2. cbn. rewrite Hp, H2. split; [discriminate | auto].
  - intros [Hne H]. destruct s as [| c s]; [congruence |].
    cbn in H. apply andb_true_iff in H. destruct H as [Hp H].
    exists [c], s. repeat split; auto with regex.
    now apply matches_star_chr.
Qed.

End RegexFacts.

(* ================================================================== *)
(** ** Facts about strings *)
(* ================================================================== *)

Module JsFacts.
Import Js.

Lemma length_nonneg (s : jsstring) : 0 <= length s.
Proof. unfold length. lia. Qed.

Lemma length_zero (s : jsstring) : (length s =? 0) = falsy s.
Proof. destruct s; reflexivity. Qed.

Lemma falsy_nil (s : jsstring) : falsy s = true <-> s = [].
Proof. destruct s; cbn; split; congruence. Qed.

(** What [trimStart] leaves starts with a unit that is not whitespace. *)
Lemma trimStart_head (s : jsstring) :
  match trimStart s with
  | [] => forallb is_whitespace s = true
  | c :: _ => is_whitespace c = false
  end.
Proof.
  induction s as [| c s IH]; cbn; [reflexivity |].
  destruct (is_whitespace c) eqn:Hc; cbn; auto.
Qed.

Lemma trimStart_nil (s : jsstring) :
  trimStart s = [] <-> forallb is_whitespace s = true.
Proof.
  induction s as [| c s IH]; cbn; [tauto |].
  destruct (is_whitespace c); cbn; [exact IH | split; discriminate].
Qed.

Lemma trimStart_suffix (s : jsstring) :
  exists w, s = w ++ trimStart s /\ forallb is_whitespace w = true.
Proof.
  induction s as [| c s (w & E & Hw)]; cbn.
  - exists []. auto.
  - destruct (is_whitespace c) eqn:Hc.
    + exists (c :: w). cbn. rewrite Hc, Hw. split; [congruence | reflexivity].
    + exists []. auto.
Qed.

Lemma forallb_rev (p : code_unit -> bool) (s : jsstring) :
  forallb p (rev s) = forallb p s.
Proof.
  induction s as [| c s IH]; [reflexivity |].
  cbn. rewrite forallb_app, IH. cbn. rewrite andb_true_r. apply andb_comm.
Qed.

(** Trimming leaves nothing exactly of the strings made of whitespace. *)
Lemma trim_nil (s : jsstring) :
  trim s = [] <-> forallb is_whitespace s = true.
Proof.
  unfold trim, trimEnd.
  destruct (trimStart_suffix s) as (w & E & Hw).
  assert (Hs : forallb is_whitespace s
               = forallb is_whitespace (rev (trimStart s))).
  { rewrite forallb_rev. rewrite E at 1. now rewrite forallb_app, Hw. }
  rewrite Hs, <- trimStart_nil.
  split; intros H.
  - apply (f_equal (@rev code_unit)) in H. now rewrite rev_involutive in H.
  - now rewrite H.
Qed.

(** What [trim] leaves ends with a unit that is not whitespace. *)
Lemma trim_last (s : jsstring) :
  trim s = [] \/ is_whitespace (last (trim s) 0%N) = false.
Proof.
  unfold trim, trimEnd.
  pose proof (trimStart_head (rev (trimStart s))) as H.
  destruct (trimStart (rev (trimStart s))) as [| c t]; [left; reflexivity |].
  right. cbn [rev]. now rewrite last_last.
Qed.

Lemma is_label_unit_not_space (c : code_unit) :
  Validators.lower_alnum c = true -> is_whitespace c = false.
Proof.
  unfold Validators.lower_alnum, is_whitespace. intros H.
  apply not_true_is_false. intros H'.
  repeat rewrite ?orb_true_iff, ?andb_true_iff, ?N.leb_le, ?N.eqb_eq in H.
  repeat rewrite ?orb_true_iff, ?andb_true_iff, ?N.leb_le, ?N.eqb_eq in H'.
  lia.
Qed.

Lemma split_free (sep : code_unit) (l : jsstring) :
  free_of sep l = true -> split sep l = [l].
Proof.
  induction l as [| c l IH]; cbn; [reflexivity |].
  intros H. apply andb_true_iff in H. destruct H as [Hc Hl].
  apply negb_true_iff in Hc. rewrite Hc, (IH Hl). reflexivity.
Qed.

Lemma split_at_first (sep : code_unit) (l rest : jsstring) :
  free_of sep l = true ->
  split sep (l ++ sep :: rest) = l :: split sep rest.
Proof.
  induction l as [| c l IH]; cbn.
  - intros _. now rewrite N.eqb_refl.
  - intros H. apply andb_true_iff in H. destruct H as [Hc Hl].
    apply negb_true_iff in Hc. rewrite Hc, (IH Hl). reflexivity.
Qed.

Lemma split_dotted (sep : code_unit) (parts : list jsstring) :
  forall l,
    forallb (free_of sep) (l :: parts) = true ->
    split sep (l ++ dotted sep parts) = l :: parts.
Proof.
  induction parts as [| p parts IH]; intros l H; cbn in H;
    apply andb_true_iff in H; destruct H as [Hl Hps].
  - unfold dotted. cbn. rewrite app_nil_r. now apply split_free.
  - unfold dotted. cbn [List.map List.concat app].
    rewrite split_at_first by exact Hl.
    f_equal. apply IH. exact Hps.
Qed.

Lemma split_joins_back (sep : code_unit) (s : jsstring) :
  exists l parts, split sep s = l :: parts /\ s = l ++ dotted sep parts.
Proof.
  induction s as [| c s (l & parts & E & Es)]; cbn.
  - exists [], []. auto.
  - destruct (c =? sep)%N eqn:Hc.
    + apply N.eqb_eq in Hc. subst c.
      exists [], (l :: parts). rewrite E. split; [reflexivity |].
      unfold dotted. cbn. now rewrite Es at 1.
    + rewrite E. exists (c :: l), parts. split; [reflexivity |].
      cbn. now rewrite Es at 1.
Qed.

Lemma length_repeat (c : code_unit) (n : nat) :
  length (repeat c n) = Z.of_nat n.
Proof. unfold length. now rewrite repeat_length. Qed.

Lemma forallb_repeat (p : code_unit -> bool) (c : code_unit) (n : nat) :
  p c = false -> n <> 0%nat -> forallb p (repeat c n) = false.
Proof.
  intros Hp Hn. destruct n as [| n]; [congruence |]. cbn. now rewrite Hp.
Qed.

End JsFacts.

(* ================================================================== *)
(** ** Properties of [src/lib/validators.ts] *)
(* ================================================================== *)

Module ValidatorsSpec.
Import Js Regex Validators Rules RegexFacts JsFacts Samples.

#[local] Hint Constructors Matches : regex.

Lemma forallb_weaken (p q : code_unit -> bool) (s : jsstring) :
  (forall c, p c = true -> q c = true) ->
  forallb p s = true -> forallb q s = true.
Proof.
  intros Hpq. induction s as [| c s IH]; cbn; [reflexivity |].
  intros H. apply andb_true_iff in H. destruct H as [Hc Hs].
  now rewrite (Hpq c Hc), (IH Hs).
Qed.

Lemma lower_is_dash (c : code_unit) :
  lower_alnum c = true -> dash_lower_alnum c = true.
Proof. unfold dash_lower_alnum. intros ->. apply orb_true_r. Qed.

Lemma dash_is_not_dot (c : code_unit) :
  dash_lower_alnum c = true -> negb (c =? 46)%N = true.
Proof.
  intros H. apply negb_true_iff. destruct (N.eqb_spec c 46); [| reflexivity].
  subst c. discriminate H.
Qed.

(** *** Resource names *)

Lemma matches_label (s : jsstring) :
  Matches label_re s <-> is_label s = true.
Proof.
  unfold label_re. rewrite matches_cat. split.
  - intros (s1 & s2 & -> & H1 & H2).
    apply matches_chr in H1. destruct H1 as (c & -> & Hc).
    apply matches_opt in H2. destruct H2 as [H2 | ->].
    + apply matches_cat in H2. destruct H2 as (m & e & -> & Hm & He).
      apply matches_star_chr in Hm.
      apply matches_chr in He. destruct He as (d & -> & Hd).
      cbn [app is_label].
      change (c :: m ++ [d]) with ((c :: m) ++ [d]).
      rewrite last_last, forallb_app. cbn [forallb].
      now rewrite Hc, Hd, Hm, (lower_is_dash c Hc), (lower_is_dash d Hd).
    + cbn. now rewrite Hc, (lower_is_dash c Hc).
  - destruct s as [| c s2]; cbn [is_label]; [discriminate |].
    intros H. apply andb_true_iff in H. destruct H as [H Hall].
    apply andb_true_iff in H. destruct H as [Hc Hlast].
    exists [c], s2. split; [reflexivity |]. split; [auto with regex |].
    apply matches_opt. destruct s2 as [| d s2]; [right; reflexivity | left].
    change (last (c :: d :: s2) 0%N) with (last (d :: s2) 0%N) in Hlast.
    assert (Hall' : forallb dash_lower_alnum (d :: s2) = true).
    { cbn [forallb] in Hall |- *. apply andb_true_iff in Hall.
      destruct Hall as [_ Hall]. exact Hall. }
    clear Hall. rename Hall' into Hall.
    remember (d :: s2) as t eqn:Et.
    assert (E : t = removelast t ++ [last t 0%N])
      by (apply app_removelast_last; subst t; discriminate).
    rewrite E in Hall. rewrite forallb_app in Hall.
    apply andb_true_iff in Hall. destruct Hall as [Hm _].
    apply matches_cat. exists (removelast t), [last t 0%N].
    split; [exact E |]. split; [now apply matches_star_chr | auto with regex].
Qed.

Lemma label_free_of_dot (l : jsstring) :
  is_label l = true -> free_of 46%N l = true.
Proof.
  destruct l as [| c l]; [discriminate |]. unfold is_label.
  intros H. apply andb_true_iff in H. destruct H as [_ H].
  revert H. apply forallb_weaken. exact dash_is_not_dot.
Qed.

Lemma labels_free_of_dot (ls : list jsstring) :
  forallb is_label ls = true -> forallb (free_of 46%N) ls = true.
Proof.
  induction ls as [| l ls IH]; cbn; [reflexivity |].
  intros H. apply andb_true_iff in H. destruct H as [Hl Hls].
  now rewrite (label_free_of_dot l Hl), (IH Hls).
Qed.

Lemma matches_dot_labels (s : jsstring) :
  Matches (Star (Cat (Chr dot) label_re)) s
  <-> exists ls, forallb is_label ls = true /\ s = dotted 46%N ls.
Proof.
  split.
  - intros H. remember (Star (Cat (Chr dot) label_re)) as r eqn:Er.
    induction H as [| | | | | | r0 s1 s2 H1 _ H2 IH2]; try discriminate.
    + exists []. auto.
    + injection Er as ->. destruct (IH2 eq_refl) as (ls & Hls & ->).
      apply matches_cat in H1. destruct H1 as (d & l & -> & Hd & Hl).
      apply matches_chr in Hd. destruct Hd as (c & -> & Hc).
      apply N.eqb_eq in Hc. subst c. apply matches_label in Hl.
      exists (l :: ls). cbn [forallb]. rewrite Hl, Hls. split; reflexivity.
  - intros (ls & Hls & ->). induction ls as [| l ls IH].
    + apply MStar0.
    + cbn in Hls. apply andb_true_iff in Hls. destruct Hls as [Hl Hls].
      change (dotted 46%N (l :: ls)) with ((46%N :: l) ++ dotted 46%N ls).
      apply MStarS; [| exact (IH Hls)].
      change (46%N :: l) with ([46%N] ++ l).
      apply MCat; [apply MChr; reflexivity | now apply matches_label].
Qed.

Lemma matches_dns1123 (s : jsstring) :
  Matches dns1123_re s <-> is_dns_subdomain s = true.
Proof.
  unfold dns1123_re, is_dns_subdomain. rewrite matches_cat. split.
  - intros (l & rest & -> & Hl & Hrest).
    apply matches_label in Hl.
    apply matches_dot_labels in Hrest. destruct Hrest as (ls & Hls & ->).
    rewrite split_dotted.
    + cbn. now rewrite Hl, Hls.
    + apply (labels_free_of_dot (l :: ls)). cbn. now rewrite Hl, Hls.
  - intros H. destruct (split_joins_back 46%N s) as (l & ls & E & Es).
    rewrite E in H. cbn in H. apply andb_true_iff in H. destruct H as [Hl Hls].
    exists l, (dotted 46%N ls). split; [exact Es |].
    split; [now apply matches_label |].
    apply matches_dot_labels. eauto.
Qed.

Lemma test_dns1123 (name : jsstring) :
  test dns1123_re name = is_dns_subdomain name.
Proof.
  apply eq_true_iff_eq. rewrite test_spec. apply matches_dns1123.
Qed.

(** A name of the grammar starts with a unit that trimming keeps. *)
Lemma dns_subdomain_not_blank (name : jsstring) :
  is_dns_subdomain name = true -> falsy (trim name) = false.
Proof.
  intros H. apply matches_dns1123 in H. unfold dns1123_re in H.
  apply matches_cat in H. destruct H as (l & rest & -> & Hl & _).
  apply matches_label in Hl. destruct l as [| c l]; [discriminate |].
  cbn in Hl. apply andb_true_iff in Hl. destruct Hl as [Hl _].
  apply andb_true_iff in Hl. destruct Hl as [Hc _].
  apply is_label_unit_not_space in Hc.
  destruct (falsy (trim ((c :: l) ++ rest))) eqn:Hf; [| reflexivity].
  apply falsy_nil, trim_nil in Hf. cbn in Hf. now rewrite Hc in Hf.
Qed.

(** C4: [isValidK8sName] accepts a name exactly when the name is not
    empty, has at most 253 characters and follows the DNS-subdomain
    grammar: labels separated by dots, each label made of lowercase
    alphanumerics and hyphens and starting and ending with a lowercase
    alphanumeric; and [validateSecretName] reports [valid] exactly when
    [isValidK8sName] accepts. *)
Theorem k8s_name_is_dns_subdomain (name : jsstring) :
  isValidK8sName name
  = negb (falsy name) && (length name <=? 253) && is_dns_subdomain name
  /\ valid (validateSecretName name) = isValidK8sName name.
Proof.
  assert (Hk : isValidK8sName name
               = negb (falsy name) && (length name <=? 253)
                 && is_dns_subdomain name).
  { unfold isValidK8sName. rewrite length_zero, test_dns1123.
    destruct (falsy name); [reflexivity |]. cbn [orb negb andb].
    rewrite Z.gtb_ltb, Z.leb_antisym.
    destruct (253 <? length name); reflexivity. }
  split; [exact Hk |].
  unfold validateSecretName. rewrite length_zero, Hk.
  destruct (falsy name) eqn:Hf; cbn [orb negb andb]; [reflexivity |].
  destruct (falsy (trim name)) eqn:Ht.
  - destruct (is_dns_subdomain name) eqn:Hd.
    + apply dns_subdomain_not_blank in Hd. congruence.
    + cbn [valid]. now rewrite andb_false_r.
  - rewrite Z.gtb_ltb, Z.leb_antisym.
    destruct (253 <? length name); cbn; [reflexivity |].
    destruct (is_dns_subdomain name); reflexivity.
Qed.

(** *** Secret values *)

Lemma validateSecretValue_valid (value : jsstring) :
  valid (validateSecretValue value)
  = negb (falsy (trim value)) && (length value <=? 1048576).
Proof.
  unfold validateSecretValue. rewrite length_zero.
  destruct value as [| c value]; [reflexivity |]. cbn [falsy orb].
  destruct (falsy (trim (c :: value))); [reflexivity |].
  change (1024 * 1024) with 1048576.
  rewrite Z.gtb_ltb, Z.leb_antisym.
  destruct (1048576 <? length (c :: value)); reflexivity.
Qed.

Lemma utf8_length_two_byte_units (c : code_unit) (n : nat) :
  (128 <= c < 2048)%N -> utf8_length (repeat c n) = 2 * Z.of_nat n.
Proof.
  intros [Hlo Hhi]. apply N.ltb_ge in Hlo. apply N.ltb_lt in Hhi.
  induction n as [| n IH]; [reflexivity |].
  cbn [repeat utf8_length]. rewrite Hlo, Hhi, IH. lia.
Qed.

(** C5 at a value of 600,000 two-byte characters: the value is not blank
    and takes 1,200,000 bytes, more than 1,048,576, and
    [validateSecretValue] reports it valid, because what it compares with
    1,048,576 is the number of code units, 600,000. *)
Theorem validateSecretValue_counts_code_units :
  valid (validateSecretValue accented_value) = true
  /\ falsy (trim accented_value) = false
  /\ length accented_value = 600000
  /\ utf8_length accented_value = 1200000.
Proof.
  assert (Hlen : length accented_value = 600000).
  { unfold accented_value. rewrite length_repeat. now rewrite N_nat_Z. }
  assert (Htrim : falsy (trim accented_value) = false).
  { destruct (falsy (trim accented_value)) eqn:Hf; [| reflexivity].
    apply falsy_nil, trim_nil in Hf. unfold accented_value in Hf.
    rewrite forallb_repeat in Hf; [discriminate | reflexivity | lia]. }
  split; [| split; [exact Htrim | split; [exact Hlen |]]].
  - rewrite validateSecretValue_valid, Htrim, Hlen. reflexivity.
  - unfold accented_value. rewrite utf8_length_two_byte_units by lia.
    now rewrite N_nat_Z.
Qed.

(** *** Certificates *)

Lemma any_unit_true (s : jsstring) : forallb any_unit s = true.
Proof.
  induction s as [| c s IH]; [reflexivity |].
  cbn. unfold any_unit at 1. now rewrite orb_negb_r.
Qed.

Lemma matches_pemRegex (t : jsstring) :
  Matches pemRegex t
  <-> exists w1 body w2 w3,
      t = BEGIN_CERTIFICATE ++ w1 ++ body ++ w2 ++ END_CERTIFICATE ++ w3
      /\ (w1 <> [] /\ forallb is_whitespace w1 = true)
      /\ body <> []
      /\ (w2 <> [] /\ forallb is_whitespace w2 = true)
      /\ forallb is_whitespace w3 = true.
Proof.
  unfold pemRegex. split.
  - intros H.
    apply matches_cat in H. destruct H as (b & t1 & -> & Hb & H).
    apply matches_cat in H. destruct H as (w1 & t2 & -> & Hw1 & H).
    apply matches_cat in H. destruct H as (body & t3 & -> & Hbody & H).
    apply matches_cat in H. destruct H as (w2 & t4 & -> & Hw2 & H).
    apply matches_cat in H. destruct H as (e & w3 & -> & He & Hw3).
    apply matches_lit in Hb, He. subst b e.
    apply matches_plus_chr in Hw1, Hbody, Hw2.
    apply matches_star_chr in Hw3.
    exists w1, body, w2, w3. tauto.
  - intros (w1 & body & w2 & w3 & -> & Hw1 & Hbody & Hw2 & Hw3).
    repeat (apply MCat).
    + now apply matches_lit.
    + now apply matches_plus_chr.
    + apply matches_plus_chr. split; [exact Hbody | apply any_unit_true].
    + now apply matches_plus_chr.
    + now apply matches_lit.
    + now apply matches_star_chr.
Qed.

(** After trimming nothing follows the END line. *)
Lemma trimmed_has_no_trailing_space (s front w3 : jsstring) :
  trim s = front ++ END_CERTIFICATE ++ w3 ->
  forallb is_whitespace w3 = true -> w3 = [].
Proof.
  intros E Hw3. destruct w3 as [| c w3]; [reflexivity | exfalso].
  remember (c :: w3) as w eqn:Ew.
  assert (Hw : w = removelast w ++ [last w 0%N])
    by (apply app_removelast_last; subst w; discriminate).
  destruct (trim_last s) as [Hnil | Hlast].
  - rewrite Hnil in E. symmetry in E. apply app_eq_nil in E.
    destruct E as [_ E]. discriminate E.
  - rewrite Hw in Hw3. rewrite forallb_app in Hw3.
    apply andb_true_iff in Hw3. destruct Hw3 as [_ Hw3].
    cbn in Hw3. rewrite andb_true_r in Hw3.
    rewrite E, Hw, !app_assoc, last_last in Hlast. congruence.
Qed.

(** C6, as the code has it: [isValidPEM] accepts a string exactly when,
    after trimming, it is the BEGIN CERTIFICATE line, at least one
    whitespace character, at least one character of any kind, at least one
    whitespace character, and the END CERTIFICATE line; the content between
    the lines is not examined.  [validatePEMCertificate] reports [valid]
    exactly when [isValidPEM] accepts. *)
Theorem isValidPEM_checks_markers_only (value : jsstring) :
  (isValidPEM value = true
   <-> exists w1 body w2,
       trim value
       = BEGIN_CERTIFICATE ++ w1 ++ body ++ w2 ++ END_CERTIFICATE
       /\ (w1 <> [] /\ forallb is_whitespace w1 = true)
       /\ body <> []
       /\ (w2 <> [] /\ forallb is_whitespace w2 = true))
  /\ valid (validatePEMCertificate value) = isValidPEM value.
Proof.
  split.
  - unfold isValidPEM. split.
    + destruct (falsy value); [discriminate |]. intros H.
      apply test_spec, matches_pemRegex in H.
      destruct H as (w1 & body & w2 & w3 & E & Hw1 & Hbody & Hw2 & Hw3).
      assert (w3 = []) as ->.
      { rewrite !app_assoc in E. rewrite <- (app_assoc _ END_CERTIFICATE) in E.
        eapply trimmed_has_no_trailing_space; eauto. }
      rewrite app_nil_r in E. exists w1, body, w2. tauto.
    + intros (w1 & body & w2 & E & Hw1 & Hbody & Hw2).
      destruct value as [| c value]; [discriminate E |]. cbn [falsy].
      apply test_spec, matches_pemRegex.
      exists w1, body, w2, []. rewrite app_nil_r. tauto.
  - unfold validatePEMCertificate, isValidPEM. rewrite length_zero.
    destruct (falsy value); [reflexivity |]. cbn [orb].
    destruct (falsy (trim value)) eqn:Ht.
    + apply falsy_nil in Ht. rewrite Ht. reflexivity.
    + destruct (test pemRegex (trim value)); reflexivity.
Qed.

(** C6 as it is stated fails: the content "!!!" is not base64, and the
    string is accepted all the same. *)
Lemma isValidPEM_accepts_non_base64 :
  isValidPEM pem_not_base64 = true
  /\ valid (validatePEMCertificate pem_not_base64) = true
  /\ is_base64_envelope pem_not_base64 = false.
Proof.
  repeat split; vm_compute; reflexivity.
Qed.

Lemma isValidPEM_checks_markers_only_witness : isValidPEM pem_small = true.
Proof.
  apply (proj1 (isValidPEM_checks_markers_only pem_small)).
  exists LF, (js "QUJD"), LF.
  repeat split; try discriminate; reflexivity.
Defined.

Example k8s_names_of_the_documentation :
  isValidK8sName (js "my-app") = true
  /\ isValidK8sName (js "db.primary") = true
  /\ isValidK8sName (js "app-v1.0.0") = true
  /\ isValidK8sName (js "Invalid_Name") = false
  /\ isValidK8sName (js "db..primary") = false
  /\ isValidK8sName (js "-db") = false
  /\ isValidK8sName [] = false.
Proof.
  repeat split; vm_compute; reflexivity.
Qed.

End ValidatorsSpec.

(* ================================================================== *)
(** ** Properties of [src/lib/retry.ts] *)
(* ================================================================== *)

Module RetrySpec.
Import Js Types Retry.

Section Loop.

Variables T St : Type.
Variable operation : St -> completion (Promise (Result T value)) * St.
Variable random_draws : nat -> Q.

Local Abbreviation attempts := (attempts operation random_draws).
Local Abbreviation retryWithBackoff := (retryWithBackoff operation random_draws).
Local Abbreviation invoke := (invoke operation).
Local Abbreviation drawDelay := (drawDelay random_draws).
Local Abbreviation outcomes := (outcomes operation).
Local Abbreviation state_after := (state_after operation).

Lemma attempts_ignore_isRetryable (o1 o2 : RequiredRetryOptions) :
  agree_but_isRetryable o1 o2 ->
  forall fuel attempt errors (w : World St),
    attempts o1 fuel attempt errors w = attempts o2 fuel attempt errors w.
Proof.
  destruct o1 as [m1 i1 x1 b1 j1 p1], o2 as [m2 i2 x2 b2 j2 p2].
  intros (Hm & Hi & Hx & Hb & Hj); cbn in *; subst.
  induction fuel as [| fuel IH]; intros attempt errors w.
  - reflexivity.
  - cbn [Retry.attempts maxAttempts].
    destruct (attempt <? m2); [| reflexivity].
    destruct (invoke w) as [[[v | error] | error] w1]; [reflexivity | |].
    + destruct (attempt =? m2 - 1); [reflexivity |].
      change (drawDelay attempt
                {| maxAttempts := m2; initialDelayMs := i2; maxDelayMs := x2;
                   backoffMultiplier := b2; useJitter := j2;
                   isRetryable := p1 |} w1)
        with (drawDelay attempt
                {| maxAttempts := m2; initialDelayMs := i2; maxDelayMs := x2;
                   backoffMultiplier := b2; useJitter := j2;
                   isRetryable := p2 |} w1).
      destruct (drawDelay _ _ w1) as [delay w2]. apply IH.
    + destruct (attempt =? m2 - 1); [reflexivity |].
      change (drawDelay attempt
                {| maxAttempts := m2; initialDelayMs := i2; maxDelayMs := x2;
                   backoffMultiplier := b2; useJitter := j2;
                   isRetryable := p1 |} w1)
        with (drawDelay attempt
                {| maxAttempts := m2; initialDelayMs := i2; maxDelayMs := x2;
                   backoffMultiplier := b2; useJitter := j2;
                   isRetryable := p2 |} w1).
      destruct (drawDelay _ _ w1) as [delay w2]. apply IH.
Qed.

(** C3: for every operation, options record and pair of classifiers [p1],
    [p2], [retryWithBackoff] under [{...options, isRetryable: p1}] and under
    [{...options, isRetryable: p2}] returns the same result and leaves the
    same world, in particular the same number of invocations of the
    operation and the same delays: the classifier is not consulted. *)
Theorem isRetryable_is_not_consulted
        (options : RetryOptions) (p1 p2 : Error -> bool) (w : World St) :
  retryWithBackoff (with_isRetryable p1 options) w
  = retryWithBackoff (with_isRetryable p2 options) w.
Proof.
  unfold Retry.retryWithBackoff.
  cbn [spread with_isRetryable opt_maxAttempts maxAttempts].
  apply attempts_ignore_isRetryable.
  repeat split.
Qed.

(** C10: with [maxAttempts: 0] the operation is not invoked (the world is
    left as it was) and the result is the failure whose message is
    "Operation failed after 0 attempts:" and a line feed, with no attempt
    line. *)
Theorem zero_attempts_fails_at_once (options : RetryOptions) (w : World St) :
  opt_maxAttempts options = Some 0 ->
  retryWithBackoff options w
  = Some (Err (js "Operation failed after 0 attempts:" ++ LF), w).
Proof.
  intros H0. destruct options as [m i x b j p].
  cbn in H0. subst m. reflexivity.
Qed.

(** *** The loop, iteration by iteration *)

Lemma invoke_unfold (w : World St) :
  invoke w
  = (bind (fst (operation (op_state w))) await,
     {| op_state := snd (operation (op_state w)); calls := S (calls w);
        slept := slept w; drawn := drawn w |}).
Proof.
  unfold Retry.invoke. destruct (operation (op_state w)); reflexivity.
Qed.

Lemma outcomes_unfold (n : nat) (s : St) :
  outcomes (S n) s
  = bind (fst (operation s)) await :: outcomes n (snd (operation s)).
Proof.
  cbn. destruct (operation s); reflexivity.
Qed.



(** The last iteration, when it does not succeed: the aggregate failure. *)
Lemma attempts_last_failure (opts : RequiredRetryOptions) (fuel : nat)
      (attempt : Z) (errors : list jsstring) (w : World St) :
  attempt = maxAttempts opts - 1 ->
  succeeded (fst (invoke w)) = false ->
  attempts opts (S fuel) attempt errors w
  = Some (Err (failure_message opts
                 (errors ++ [attempt_line attempt
                               (recorded_message (fst (invoke w)))])),
          snd (invoke w)).
Proof.
  intros Hlast Hfail.
  assert (Hlt : (attempt <? maxAttempts opts) = true) by (apply Z.ltb_lt; lia).
  apply Z.eqb_eq in Hlast.
  cbn [Retry.attempts]. rewrite Hlt.
  destruct (invoke w) as [[[v | error] | error] w1];
    [discriminate Hfail | |]; rewrite Hlast; reflexivity.
Qed.

(** An iteration that succeeds returns the success as it is. *)
Lemma attempts_success (opts : RequiredRetryOptions) (fuel : nat)
      (attempt : Z) (errors : list jsstring) (w : World St) (v : T) :
  attempt < maxAttempts opts ->
  fst (invoke w) = Normal (Ok v) ->
  attempts opts (S fuel) attempt errors w = Some (Ok v, snd (invoke w)).
Proof.
  intros Hlt Hok. apply Z.ltb_lt in Hlt.
  cbn [Retry.attempts]. rewrite Hlt.
  destruct (invoke w) as [c w1]. cbn [fst snd] in *. subst c. reflexivity.
Qed.



(** The loop returns whenever the fuel covers the attempts that remain,
    which the fuel [retryWithBackoff] starts with does. *)
Lemma attempts_enough_fuel (opts : RequiredRetryOptions) (fuel : nat) :
  forall (attempt : Z) (errors : list jsstring) (w : World St),
    (Z.to_nat (maxAttempts opts - attempt) <= fuel)%nat ->
    exists result w', attempts opts fuel attempt errors w = Some (result, w').
Proof.
  induction fuel as [| fuel IH]; intros attempt errors w Hfuel;
    cbn [Retry.attempts]; destruct (Z.ltb_spec attempt (maxAttempts opts));
    try (eexists; eexists; reflexivity); [lia |].
  destruct (invoke w) as [[[v | error] | error] w1];
    [eexists; eexists; reflexivity | |];
    (destruct (attempt =? maxAttempts opts - 1);
     [eexists; eexists; reflexivity |]);
    destruct (drawDelay attempt opts w1) as [delay w2];
    apply IH; lia.
Qed.

Lemma retryWithBackoff_returns (options : RetryOptions) (w : World St) :
  exists result w', retryWithBackoff options w = Some (result, w').
Proof.
  unfold Retry.retryWithBackoff. apply attempts_enough_fuel. lia.
Qed.




End Loop.


(** *** The stubs of the tests *)

Section Stubs.
Import Samples.



Lemma zero_attempts_fails_at_once_witness :
  retryWithBackoff alwaysFail half (attempts_of 0) fresh
  = Some (Err (js "Operation failed after 0 attempts:" ++ LF), fresh).
Proof.
  apply (@zero_attempts_fails_at_once _ _ alwaysFail half (attempts_of 0) fresh).
  reflexivity.
Defined.

Example retry_delays_of_the_stub :
  retryWithBackoff failTwiceThenSucceed half no_options fresh
  = Some (Ok (js "success"),
          {| op_state := 3%nat; calls := 3; slept := [2000; 1000];
             drawn := 2 |}).
Proof. vm_compute. reflexivity. Qed.

End Stubs.

End RetrySpec.

(* ================================================================== *)
(** ** Searching in strings *)
(* ================================================================== *)

Module SearchFacts.
Import Js Regex RegexFacts.

Lemma matches_prefix_spec (s : jsstring) :
  forall r,
    matches_prefix r s = true
    <-> exists m rest, s = m ++ rest /\ Matches r m.
Proof.
  induction s as [| c s IH]; intros r; cbn [matches_prefix].
  - rewrite orb_false_r, nullable_spec. split.
    + intros H. exists [], []. auto.
    + intros (m & rest & E & H). symmetry in E.
      apply app_eq_nil in E. destruct E as [-> _]. exact H.
  - rewrite orb_true_iff, nullable_spec, IH. split.
    + intros [H | (m & rest & -> & H)].
      * exists [], (c :: s). auto.
      * apply deriv_spec in H. exists (c :: m), rest. auto.
    + intros (m & rest & E & H). destruct m as [| c' m]; [left; exact H |].
      cbn in E. injection E as <- ->. right.
      exists m, rest. split; [reflexivity | now apply deriv_spec].
Qed.

Lemma search_spec (r : regex) (s : jsstring) :
  search r s = true
  <-> exists before m rest, s = before ++ m ++ rest /\ Matches r m.
Proof.
  induction s as [| c s IH]; cbn [search].
  - rewrite orb_false_r, matches_prefix_spec. split.
    + intros (m & rest & E & H). exists [], m, rest. auto.
    + intros (before & m & rest & E & H). symmetry in E.
      apply app_eq_nil in E. destruct E as [-> E].
      exists m, rest. auto.
  - rewrite orb_true_iff, matches_prefix_spec, IH. split.
    + intros [(m & rest & E & H) | (before & m & rest & -> & H)].
      * exists [], m, rest. auto.
      * exists (c :: before), m, rest. auto.
    + intros (before & m & rest & E & H).
      destruct before as [| c' before]; cbn in E.
      * left. eauto.
      * injection E as <- ->. right. eauto.
Qed.

Lemma starts_with_spec (sub : jsstring) :
  forall s, starts_with sub s = true <-> exists rest, s = sub ++ rest.
Proof.
  induction sub as [| a sub IH]; intros s; cbn [starts_with].
  - split; [intros _; exists s; reflexivity | reflexivity].
  - destruct s as [| b s].
    + split; [discriminate | intros (rest & E); discriminate E].
    + rewrite andb_true_iff, N.eqb_eq, IH. split.
      * intros [-> (rest & ->)]. exists rest. reflexivity.
      * intros (rest & E). cbn in E. injection E as -> ->. eauto.
Qed.

Lemma includes_spec (sub s : jsstring) :
  includes s sub = true <-> exists before rest, s = before ++ sub ++ rest.
Proof.
  induction s as [| c s IH]; cbn [includes].
  - rewrite orb_false_r, starts_with_spec. split.
    + intros (rest & E). exists [], rest. exact E.
    + intros (before & rest & E). symmetry in E.
      apply app_eq_nil in E. destruct E as [-> E]. eauto.
  - rewrite orb_true_iff, starts_with_spec, IH. split.
    + intros [(rest & E) | (before & rest & ->)].
      * exists [], rest. exact E.
      * exists (c :: before), rest. reflexivity.
    + intros (before & rest & E). destruct before as [| c' before]; cbn in E.
      * left. eauto.
      * injection E as <- ->. right. eauto.
Qed.

(** Occurring in a part of a string is occurring in the string. *)
Lemma includes_trans (a b c : jsstring) :
  includes a b = true -> includes b c = true -> includes a c = true.
Proof.
  rewrite !includes_spec.
  intros (p1 & r1 & ->) (p2 & r2 & ->).
  exists (p1 ++ p2), (r2 ++ r1). now rewrite <- !app_assoc.
Qed.

Lemma search_in_part (r : regex) (a b : jsstring) :
  includes a b = true -> search r b = true -> search r a = true.
Proof.
  rewrite includes_spec, !search_spec.
  intros (p1 & r1 & ->) (p2 & m & r2 & -> & H).
  exists (p1 ++ p2), m, (r2 ++ r1). split; [| exact H].
  now rewrite <- !app_assoc.
Qed.

End SearchFacts.

(* ================================================================== *)
(** ** More of [src/lib/validators.ts] *)
(* ================================================================== *)

Module ValidatorsMore.
Import Js Regex Validators Rules RegexFacts JsFacts Samples.

#[local] Hint Constructors Matches : regex.

(** *** Trimming *)

Lemma falsy_trim (s : jsstring) :
  falsy (trim s) = forallb is_whitespace s.
Proof.
  apply eq_true_iff_eq. rewrite falsy_nil. apply trim_nil.
Qed.

Lemma trimStart_skips (w s : jsstring) :
  forallb is_whitespace w = true -> trimStart (w ++ s) = trimStart s.
Proof.
  induction w as [| c w IH]; cbn; [reflexivity |].
  intros H. apply andb_true_iff in H. destruct H as [-> H]. auto.
Qed.

Lemma trimStart_stops (s w : jsstring) :
  forallb is_whitespace s = false -> trimStart (s ++ w) = trimStart s ++ w.
Proof.
  induction s as [| c s IH]; cbn; [discriminate |].
  destruct (is_whitespace c); cbn; auto.
Qed.

Lemma trimEnd_skips (s w : jsstring) :
  forallb is_whitespace w = true -> trimEnd (s ++ w) = trimEnd s.
Proof.
  intros H. unfold trimEnd. rewrite rev_app_distr, trimStart_skips; auto.
  now rewrite forallb_rev.
Qed.

Lemma trim_skips_left (w s : jsstring) :
  forallb is_whitespace w = true -> trim (w ++ s) = trim s.
Proof.
  intros H. unfold trim. now rewrite trimStart_skips.
Qed.

Lemma trim_skips_right (s w : jsstring) :
  forallb is_whitespace w = true -> trim (s ++ w) = trim s.
Proof.
  intros H. unfold trim.
  destruct (forallb is_whitespace s) eqn:Hs.
  - assert (H1 : trimStart (s ++ w) = [])
      by (apply trimStart_nil; now rewrite forallb_app, Hs, H).
    assert (H2 : trimStart s = []) by now apply trimStart_nil.
    now rewrite H1, H2.
  - rewrite trimStart_stops by exact Hs. now apply trimEnd_skips.
Qed.

(** A string is its trimmed part between two runs of whitespace. *)
Lemma trim_decompose (s : jsstring) :
  exists l r,
    s = l ++ trim s ++ r
    /\ forallb is_whitespace l = true /\ forallb is_whitespace r = true.
Proof.
  destruct (trimStart_suffix s) as (l & El & Hl).
  destruct (trimStart_suffix (rev (trimStart s))) as (r & Er & Hr).
  exists l, (rev r). split; [| split; [exact Hl | now rewrite forallb_rev]].
  unfold trim, trimEnd.
  apply (f_equal (@rev code_unit)) in Er.
  rewrite rev_involutive, rev_app_distr in Er.
  now rewrite <- Er.
Qed.

Lemma last_of_app (a b : jsstring) (d : code_unit) :
  b <> [] -> last (a ++ b) d = last b d.
Proof.
  intros Hb. induction a as [| c a IH]; [reflexivity |].
  cbn [app]. destruct (a ++ b) eqn:E.
  - apply app_eq_nil in E. destruct E. contradiction.
  - rewrite <- IH. reflexivity.
Qed.

(** Trimming changes nothing in a string that starts and ends with units
    that are not whitespace. *)
Lemma trim_fixed (c : code_unit) (s : jsstring) :
  is_whitespace c = false ->
  is_whitespace (last (c :: s) 0%N) = false ->
  trim (c :: s) = c :: s.
Proof.
  intros Hc Hlast. unfold trim. cbn [trimStart]. rewrite Hc.
  unfold trimEnd.
  assert (E : c :: s = removelast (c :: s) ++ [last (c :: s) 0%N])
    by (apply app_removelast_last; discriminate).
  rewrite E at 1. rewrite rev_app_distr. cbn [rev app trimStart].
  rewrite Hlast. cbn [rev]. rewrite rev_involutive. now rewrite <- E.
Qed.

Lemma trim_fixed_nonempty (s : jsstring) :
  is_whitespace (hd 0%N s) = false ->
  is_whitespace (last s 0%N) = false ->
  s <> [] ->
  trim s = s.
Proof.
  destruct s as [| c s]; [congruence |]. intros Hc Hlast _.
  now apply trim_fixed.
Qed.

(** *** Key names *)

Lemma matches_framed (edge inner : code_unit -> bool) (s : jsstring) :
  (forall c, edge c = true -> inner c = true) ->
  Matches (Cat (Chr edge) (Opt (Cat (Star (Chr inner)) (Chr edge)))) s
  <-> framed edge inner s = true.
Proof.
  intros Hsub. rewrite matches_cat. split.
  - intros (s1 & s2 & -> & H1 & H2).
    apply matches_chr in H1. destruct H1 as (c & -> & Hc).
    apply matches_opt in H2. destruct H2 as [H2 | ->].
    + apply matches_cat in H2. destruct H2 as (m & e & -> & Hm & He).
      apply matches_star_chr in Hm.
      apply matches_chr in He. destruct He as (d & -> & Hd).
      cbn [app framed].
      change (c :: m ++ [d]) with ((c :: m) ++ [d]).
      rewrite last_last, forallb_app. cbn [forallb].
      now rewrite Hc, Hd, Hm, (Hsub c Hc), (Hsub d Hd).
    + cbn. now rewrite Hc, (Hsub c Hc).
  - destruct s as [| c s2]; cbn [framed]; [discriminate |].
    intros H. apply andb_true_iff in H. destruct H as [H Hall].
    apply andb_true_iff in H. destruct H as [Hc Hlast].
    exists [c], s2. split; [reflexivity |]. split; [auto with regex |].
    apply matches_opt. destruct s2 as [| d s2]; [right; reflexivity | left].
    change (last (c :: d :: s2) 0%N) with (last (d :: s2) 0%N) in Hlast.
    assert (Hall' : forallb inner (d :: s2) = true).
    { cbn [forallb] in Hall |- *. apply andb_true_iff in Hall.
      destruct Hall as [_ Hall]. exact Hall. }
    remember (d :: s2) as t eqn:Et.
    assert (E : t = removelast t ++ [last t 0%N])
      by (apply app_removelast_last; subst t; discriminate).
    rewrite E in Hall'. rewrite forallb_app in Hall'.
    apply andb_true_iff in Hall'. destruct Hall' as [Hm _].
    apply matches_cat. exists (removelast t), [last t 0%N].
    split; [exact E |]. split; [now apply matches_star_chr | auto with regex].
Qed.

Lemma alnum_is_key_unit (c : code_unit) :
  alnum c = true -> key_unit c = true.
Proof. unfold key_unit. intros ->. now rewrite !orb_true_r. Qed.

Lemma test_key_re (key : jsstring) : test key_re key = is_key key.
Proof.
  apply eq_true_iff_eq. rewrite test_spec.
  apply matches_framed. exact alnum_is_key_unit.
Qed.

Lemma is_key_not_blank (key : jsstring) :
  is_key key = true -> forallb is_whitespace key = false.
Proof.
  destruct key as [| c key]; [discriminate |]. unfold is_key, framed.
  intros H. apply andb_true_iff in H. destruct H as [H _].
  apply andb_true_iff in H. destruct H as [Hc _].
  assert (Hw : is_whitespace c = false).
  { unfold alnum in Hc. unfold is_whitespace.
    apply not_true_is_false. intros H'.
    repeat rewrite ?orb_true_iff, ?andb_true_iff, ?N.leb_le, ?N.eqb_eq in Hc.
    repeat rewrite ?orb_true_iff, ?andb_true_iff, ?N.leb_le, ?N.eqb_eq in H'.
    lia. }
  cbn. now rewrite Hw.
Qed.

(** [isValidK8sKey] accepts a key exactly when it is not empty, has at
    most 253 characters, is made of alphanumerics, hyphens, underscores and
    dots, and starts and ends with an alphanumeric; [validateSecretKey]
    reports [valid] exactly then. *)
Theorem k8s_key_grammar (key : jsstring) :
  isValidK8sKey key
  = negb (falsy key) && (length key <=? 253) && is_key key
  /\ valid (validateSecretKey key) = isValidK8sKey key.
Proof.
  assert (Hk : isValidK8sKey key
               = negb (falsy key) && (length key <=? 253) && is_key key).
  { unfold isValidK8sKey. rewrite length_zero, test_key_re.
    destruct (falsy key); [reflexivity |]. cbn [orb negb andb].
    rewrite Z.gtb_ltb, Z.leb_antisym.
    destruct (253 <? length key); reflexivity. }
  split; [exact Hk |].
  unfold validateSecretKey. rewrite length_zero, Hk, falsy_trim.
  destruct (falsy key) eqn:Hf; cbn [orb negb andb]; [reflexivity |].
  destruct (forallb is_whitespace key) eqn:Ht.
  - destruct (is_key key) eqn:Hd.
    + apply is_key_not_blank in Hd. congruence.
    + cbn [valid]. now rewrite andb_false_r.
  - rewrite Z.gtb_ltb, Z.leb_antisym.
    destruct (253 <? length key); cbn; [reflexivity |].
    destruct (is_key key); reflexivity.
Qed.

Lemma framed_weaken (e1 i1 e2 i2 : code_unit -> bool) (s : jsstring) :
  (forall c, e1 c = true -> e2 c = true) ->
  (forall c, i1 c = true -> i2 c = true) ->
  framed e1 i1 s = true -> framed e2 i2 s = true.
Proof.
  intros He Hi. destruct s as [| c s]; [discriminate |]. unfold framed.
  intros H. apply andb_true_iff in H. destruct H as [H Hall].
  apply andb_true_iff in H. destruct H as [Hc Hlast].
  rewrite (He _ Hc), (He _ Hlast).
  now rewrite (ValidatorsSpec.forallb_weaken i1 i2 (c :: s) Hi Hall).
Qed.

Lemma framed_join (edge inner : code_unit -> bool) (a b : jsstring)
      (sep : code_unit) :
  framed edge inner a = true -> framed edge inner b = true ->
  inner sep = true ->
  framed edge inner (a ++ sep :: b) = true.
Proof.
  destruct a as [| c a]; [discriminate |].
  destruct b as [| d b]; [discriminate |].
  unfold framed. intros Ha Hb Hsep.
  apply andb_true_iff in Ha. destruct Ha as [Ha Halla].
  apply andb_true_iff in Ha. destruct Ha as [Hc _].
  apply andb_true_iff in Hb. destruct Hb as [Hb Hallb].
  apply andb_true_iff in Hb. destruct Hb as [_ Hlast].
  cbn [app]. rewrite Hc.
  assert (E : c :: a ++ sep :: d :: b = ((c :: a) ++ [sep]) ++ d :: b)
    by (now rewrite <- app_assoc).
  rewrite E, last_of_app by discriminate. rewrite Hlast.
  rewrite !forallb_app, Hallb, Halla. cbn. now rewrite Hsep.
Qed.

Lemma lower_is_alnum (c : code_unit) :
  lower_alnum c = true -> alnum c = true.
Proof.
  unfold lower_alnum, alnum. intros H.
  apply orb_true_iff in H. destruct H as [-> | ->];
    [reflexivity | apply orb_true_r].
Qed.

Lemma dash_is_key_unit (c : code_unit) :
  dash_lower_alnum c = true -> key_unit c = true.
Proof.
  unfold dash_lower_alnum, key_unit. intros H.
  apply orb_true_iff in H. destruct H as [-> | H]; [reflexivity |].
  rewrite (lower_is_alnum c H). now rewrite !orb_true_r.
Qed.

Lemma label_is_key (l : jsstring) : is_label l = true -> is_key l = true.
Proof.
  intros H. unfold is_key.
  apply (framed_weaken lower_alnum dash_lower_alnum);
    [exact lower_is_alnum | exact dash_is_key_unit |].
  destruct l; exact H.
Qed.

Lemma dns_subdomain_is_key (s : jsstring) :
  is_dns_subdomain s = true -> is_key s = true.
Proof.
  unfold is_dns_subdomain.
  destruct (split_joins_back 46%N s) as (l & ls & E & ->). rewrite E. clear E.
  revert l. induction ls as [| l2 ls IH]; intros l H; cbn in H;
    apply andb_true_iff in H; destruct H as [Hl Hls].
  - unfold dotted. cbn. rewrite app_nil_r. now apply label_is_key.
  - change (dotted 46%N (l2 :: ls)) with (46%N :: l2 ++ dotted 46%N ls).
    apply framed_join; [now apply label_is_key | | reflexivity].
    apply IH. exact Hls.
Qed.

(** Every valid resource name is a valid key name. *)
Theorem k8s_name_is_k8s_key (s : jsstring) :
  isValidK8sName s = true -> isValidK8sKey s = true.
Proof.
  intros H.
  unfold isValidK8sName in H. unfold isValidK8sKey.
  destruct (falsy s || (length s =? 0) || (length s >? 253));
    [discriminate |].
  rewrite ValidatorsSpec.test_dns1123 in H. rewrite test_key_re.
  now apply dns_subdomain_is_key.
Qed.

Lemma k8s_name_is_k8s_key_witness :
  isValidK8sKey (js "app-v1.0.0") = true.
Proof.
  apply (k8s_name_is_k8s_key (js "app-v1.0.0")). reflexivity.
Defined.

(** [isNonEmpty] rejects exactly the strings made of whitespace only, the
    empty string among them. *)
Theorem isNonEmpty_rejects_blank (value : jsstring) :
  isNonEmpty value = negb (forallb is_whitespace value).
Proof.
  unfold isNonEmpty. rewrite <- falsy_trim, <- length_zero.
  pose proof (length_nonneg (trim value)).
  rewrite Z.gtb_ltb.
  destruct (Z.eqb_spec (length (trim value)) 0) as [E | E]; cbn.
  - rewrite E. reflexivity.
  - apply Z.ltb_lt. lia.
Qed.

(** *** The results of the validators *)

(** Each validator returns an error message exactly when it reports the
    input invalid. *)
Theorem validators_report_error_iff_invalid
        (name key value pem : jsstring) (config : PluginConfigInput) :
  let consistent r :=
    valid r = match error r with None => true | Some _ => false end in
  consistent (validateSecretName name)
  /\ consistent (validateSecretKey key)
  /\ consistent (validateSecretValue value)
  /\ consistent (validatePEMCertificate pem)
  /\ consistent (validatePluginConfig config).
Proof.
  cbv zeta. repeat split.
  - unfold validateSecretName.
    destruct (falsy name || _); [reflexivity |].
    destruct (length name >? 253); [reflexivity |].
    destruct (negb (isValidK8sName name)); reflexivity.
  - unfold validateSecretKey.
    destruct (falsy key || _); [reflexivity |].
    destruct (length key >? 253); [reflexivity |].
    destruct (negb (isValidK8sKey key)); reflexivity.
  - unfold validateSecretValue.
    destruct (falsy value || _); [reflexivity |].
    destruct (length value >? 1024 * 1024); reflexivity.
  - unfold validatePEMCertificate.
    destruct (falsy pem || _); [reflexivity |].
    destruct (negb (isValidPEM pem)); reflexivity.
  - unfold validatePluginConfig.
    destruct (missing (controllerName config) || _); [reflexivity |].
    destruct (missing (controllerNamespace config) || _); [reflexivity |].
    destruct (controllerPort config) as [port |]; [| reflexivity].
    destruct (falsy_number port || _ || _); reflexivity.
Qed.

Lemma blank_or_empty (s : jsstring) :
  falsy s || (length (trim s) =? 0) = forallb is_whitespace s.
Proof.
  rewrite length_zero, falsy_trim.
  destruct s; [reflexivity |]. reflexivity.
Qed.

(** Which message [validateSecretName] and [validateSecretKey] return: a
    blank input (empty or whitespace only) is reported as missing, whatever
    its length; otherwise an input of more than 253 characters as too long;
    otherwise an input outside the grammar as malformed. *)
Theorem name_and_key_error_precedence (s : jsstring) :
  error (validateSecretName s)
  = (if forallb is_whitespace s then Some (js "Secret name is required")
     else if 253 <? length s then
       Some (js "Secret name must be 253 characters or less")
     else if is_dns_subdomain s then None
     else Some (js "Secret name must be lowercase alphanumeric, may contain hyphens and dots, and must start/end with alphanumeric"))
  /\ error (validateSecretKey s)
  = (if forallb is_whitespace s then Some (js "Key name is required")
     else if 253 <? length s then
       Some (js "Key name must be 253 characters or less")
     else if is_key s then None
     else Some (js "Key name must be alphanumeric and may contain hyphens, underscores, and dots")).
Proof.
  unfold validateSecretName, validateSecretKey.
  rewrite !blank_or_empty.
  destruct (forallb is_whitespace s) eqn:Hb; [split; reflexivity |].
  rewrite Z.gtb_ltb.
  destruct (253 <? length s) eqn:Hl; [split; reflexivity |].
  unfold isValidK8sName, isValidK8sKey.
  rewrite length_zero, Z.gtb_ltb, Hl, ValidatorsSpec.test_dns1123, test_key_re.
  destruct s as [| c s]; [discriminate Hb |]. cbn [falsy orb].
  destruct (is_dns_subdomain (c :: s)), (is_key (c :: s)); split; reflexivity.
Qed.

(** *** The size of a value *)

Lemma length_cons (c : code_unit) (s : jsstring) :
  length (c :: s) = 1 + length s.
Proof. unfold length. cbn [List.length]. lia. Qed.

Lemma utf8_length_ascii (s : jsstring) :
  is_ascii s = true -> utf8_length s = length s.
Proof.
  unfold is_ascii. induction s as [| c s IH]; [reflexivity |].
  cbn [forallb utf8_length]. intros H.
  apply andb_true_iff in H. destruct H as [Hc Hs].
  rewrite Hc, length_cons, (IH Hs). reflexivity.
Qed.

(** A string takes at least as many bytes as it has code units. *)
Lemma length_le_utf8_length (s : jsstring) :
  length s <= utf8_length s
  /\ forall c, length (c :: s) <= utf8_length (c :: s).
Proof.
  induction s as [| d s [IH1 IH2]].
  - split; [reflexivity |]. intros c. rewrite length_cons.
    cbn [utf8_length]. change (length []) with 0.
    destruct (c <? 128)%N; [lia |].
    destruct (c <? 2048)%N; [lia |].
    destruct (is_high_surrogate c); lia.
  - split; [apply IH2 |]. intros c.
    specialize (IH2 d). rewrite !length_cons in *.
    cbn [utf8_length].
    destruct (c <? 128)%N; [cbn [utf8_length] in IH2; lia |].
    destruct (c <? 2048)%N; [cbn [utf8_length] in IH2; lia |].
    destruct (is_high_surrogate c); [| cbn [utf8_length] in IH2; lia].
    destruct (is_low_surrogate d); [lia | cbn [utf8_length] in IH2; lia].
Qed.

(** For a value of ASCII characters [validateSecretValue] does limit the
    size in bytes: it reports such a value valid exactly when the value is
    not blank and takes at most 1,048,576 bytes. *)
Theorem ascii_value_limited_in_bytes (value : jsstring) :
  is_ascii value = true ->
  valid (validateSecretValue value)
  = negb (forallb is_whitespace value) && (utf8_length value <=? 1048576).
Proof.
  intros H. rewrite ValidatorsSpec.validateSecretValue_valid, falsy_trim.
  now rewrite (utf8_length_ascii value H).
Qed.

Lemma ascii_value_limited_in_bytes_witness :
  valid (validateSecretValue (js "p@ss")) = true.
Proof.
  rewrite (ascii_value_limited_in_bytes (js "p@ss")); reflexivity.
Defined.

(** [validateSecretValue] never rejects a value that is not blank and
    takes at most 1,048,576 bytes. *)
Theorem value_within_byte_limit_is_valid (value : jsstring) :
  forallb is_whitespace value = false ->
  utf8_length value <= 1048576 ->
  valid (validateSecretValue value) = true.
Proof.
  intros Hb Hsize.
  rewrite ValidatorsSpec.validateSecretValue_valid, falsy_trim, Hb.
  destruct (length_le_utf8_length value) as [Hle _].
  apply Z.leb_le. lia.
Qed.

Lemma value_within_byte_limit_is_valid_witness :
  valid (validateSecretValue [233%N; 116%N; 233%N]) = true.
Proof.
  apply (value_within_byte_limit_is_valid [233%N; 116%N; 233%N]).
  - reflexivity.
  - cbn. lia.
Defined.

(** *** The plugin configuration *)

(** [validatePluginConfig] accepts a configuration exactly when the
    controller name and the namespace are present and valid resource names
    and the port is a finite number from 1 to 65535; the port need not be
    an integer. *)
Theorem pluginConfig_accepted (config : PluginConfigInput) :
  valid (validatePluginConfig config) = true
  <-> exists n ns q,
      controllerName config = Some n /\ isValidK8sName n = true
      /\ controllerNamespace config = Some ns /\ isValidK8sName ns = true
      /\ controllerPort config = Some (Finite q)
      /\ (1 <= q /\ q <= 65535)%Q.
Proof.
  destruct config as [n ns port].
  unfold validatePluginConfig, isValidNamespace.
  cbn [controllerName controllerNamespace controllerPort].
  split.
  - destruct n as [n |]; cbn [missing orb]; [| discriminate].
    destruct (isValidK8sName n) eqn:Hn;
      [| rewrite orb_true_r; discriminate].
    destruct (falsy n); cbn [orb negb]; [discriminate |].
    destruct ns as [ns |]; cbn [missing orb]; [| discriminate].
    destruct (isValidK8sName ns) eqn:Hns;
      [| rewrite orb_true_r; discriminate].
    destruct (falsy ns); cbn [orb negb]; [discriminate |].
    destruct port as [[q | | |] |];
      cbn [falsy_number lt_const gt_const orb]; try discriminate.
    destruct (Qeq_bool q 0); cbn [orb]; [discriminate |].
    destruct (Qle_bool 1 q) eqn:H1; cbn [orb negb]; [| discriminate].
    destruct (Qle_bool q 65535) eqn:H2; cbn [orb negb]; [| discriminate].
    intros _. exists n, ns, q. apply Qle_bool_iff in H1, H2. auto 10.
  - intros (n' & ns' & q & -> & Hn & -> & Hns & -> & H1 & H2).
    cbn [missing]. rewrite Hn, Hns.
    destruct n' as [| c n']; [discriminate Hn |].
    destruct ns' as [| d ns']; [discriminate Hns |].
    cbn [falsy orb negb falsy_number lt_const gt_const].
    assert (Hz : Qeq_bool q 0 = false).
    { apply not_true_is_false. intros Hz. apply Qeq_bool_iff in Hz. lra. }
    apply Qle_bool_iff in H1, H2. now rewrite Hz, H1, H2.
Qed.

Lemma pluginConfig_accepted_witness :
  valid (validatePluginConfig config_fractional_port) = true.
Proof.
  apply (proj2 (pluginConfig_accepted config_fractional_port)).
  exists (js "sealed-secrets-controller"), (js "kube-system"), (16161 # 2).
  repeat split; try reflexivity; discriminate.
Defined.

(** *** Certificates *)

Lemma isValidPEM_of_trimmed (value : jsstring) :
  isValidPEM value = test pemRegex (trim value).
Proof.
  unfold isValidPEM. destruct value; reflexivity.
Qed.

(** Whitespace before and after the text does not change the verdict of
    [isValidPEM]. *)
Theorem isValidPEM_ignores_outer_whitespace (before value after : jsstring) :
  forallb is_whitespace before = true ->
  forallb is_whitespace after = true ->
  isValidPEM (before ++ value ++ after) = isValidPEM value.
Proof.
  intros Hb Ha. rewrite !isValidPEM_of_trimmed.
  now rewrite trim_skips_left, trim_skips_right.
Qed.

Lemma isValidPEM_ignores_outer_whitespace_witness :
  isValidPEM (js "  " ++ pem_small ++ LF) = isValidPEM pem_small.
Proof.
  apply (isValidPEM_ignores_outer_whitespace (js "  ") pem_small LF);
    reflexivity.
Defined.

(** Two accepted texts with anything at all between them are accepted:
    [isValidPEM] takes a bundle of certificates, and whatever separates
    them, for one certificate. *)
Theorem isValidPEM_accepts_bundles (first between second : jsstring) :
  isValidPEM first = true ->
  isValidPEM second = true ->
  isValidPEM (first ++ between ++ second) = true.
Proof.
  rewrite !isValidPEM_of_trimmed. intros H1 H2.
  destruct (trim_decompose first) as (l1 & r1 & E1 & Hl1 & Hr1).
  destruct (trim_decompose second) as (l2 & r2 & E2 & Hl2 & Hr2).
  apply test_spec, ValidatorsSpec.matches_pemRegex in H1, H2.
  destruct H1 as (a1 & b1 & c1 & d1 & T1 & Ha1 & Hb1 & Hc1 & Hd1).
  destruct H2 as (a2 & b2 & c2 & d2 & T2 & Ha2 & Hb2 & Hc2 & Hd2).
  assert (Hlast : is_whitespace (last (trim second) 0%N) = false).
  { destruct (trim_last second) as [Hnil | H]; [| exact H].
    rewrite Hnil in T2. discriminate T2. }
  set (middle := b1 ++ c1 ++ END_CERTIFICATE ++ d1 ++ r1 ++ between ++ l2
                    ++ BEGIN_CERTIFICATE ++ a2 ++ b2).
  assert (E : first ++ between ++ second
              = l1 ++ (BEGIN_CERTIFICATE ++ a1 ++ middle ++ c2
                         ++ END_CERTIFICATE ++ d2) ++ r2).
  { rewrite E1 at 1. rewrite E2 at 1. rewrite T1, T2. subst middle.
    now rewrite <- !app_assoc. }
  rewrite E, trim_skips_left, trim_skips_right by assumption.
  assert (Hfix : trim (BEGIN_CERTIFICATE ++ a1 ++ middle ++ c2
                         ++ END_CERTIFICATE ++ d2)
                 = BEGIN_CERTIFICATE ++ a1 ++ middle ++ c2
                     ++ END_CERTIFICATE ++ d2).
  { assert (Htail : END_CERTIFICATE ++ d2 <> []).
    { intros Hnil. apply app_eq_nil in Hnil. destruct Hnil as [Hnil _].
      discriminate Hnil. }
    assert (Hlast' : is_whitespace (last (END_CERTIFICATE ++ d2) 0%N) = false).
    { rewrite T2 in Hlast.
      replace (BEGIN_CERTIFICATE ++ a2 ++ b2 ++ c2 ++ END_CERTIFICATE ++ d2)
        with ((BEGIN_CERTIFICATE ++ a2 ++ b2 ++ c2)
                ++ END_CERTIFICATE ++ d2) in Hlast
        by (now rewrite <- !app_assoc).
      now rewrite last_of_app in Hlast. }
    apply trim_fixed_nonempty; [reflexivity | | discriminate].
    replace (BEGIN_CERTIFICATE ++ a1 ++ middle ++ c2 ++ END_CERTIFICATE ++ d2)
      with ((BEGIN_CERTIFICATE ++ a1 ++ middle ++ c2)
              ++ END_CERTIFICATE ++ d2)
      by (now rewrite <- !app_assoc).
    now rewrite last_of_app. }
  rewrite Hfix. apply test_spec, ValidatorsSpec.matches_pemRegex.
  exists a1, middle, c2, d2. repeat split; try tauto.
  subst middle. destruct b1; [tauto | discriminate].
Qed.

Lemma isValidPEM_accepts_bundles_witness :
  isValidPEM (pem_small ++ js "junk" ++ pem_small) = true.
Proof.
  apply (isValidPEM_accepts_bundles pem_small (js "junk") pem_small);
    vm_compute; reflexivity.
Defined.

(** *** The structure of a SealedSecret *)

(** [validateSealedSecretInterface] throws, instead of returning [false],
    exactly for an object whose [spec] is [null]. *)
Theorem sealedSecretInterface_throws_on_null_spec (obj : any) :
  (exists fault, validateSealedSecretInterface obj = Throw fault)
  <-> exists props,
      obj = AObject props /\ lookup (js "spec") props = Some ANull.
Proof.
  unfold validateSealedSecretInterface, and_then.
  destruct obj as [| | b | n | s | | props]; cbn [typeof_object bind];
    try (split; [intros (fault & H); discriminate H
                | intros (props & H & _); discriminate H]).
  cbn [has_property get_property bind].
  destruct (lookup (js "spec") props) as [spec |] eqn:Hspec.
  - destruct spec as [| | b | n | s | | sp]; cbn [typeof_object bind];
      try (split; [intros (fault & H); discriminate H
                  | intros (props' & E & H); injection E as <-;
                    rewrite Hspec in H; discriminate H]).
    + cbn [has_property bind].
      split; [intros _; exists props; auto | intros _; eexists; reflexivity].
    + cbn [has_property get_property bind].
      destruct (lookup (js "encryptedData") sp); cbn [bind];
        (split; [intros (fault & H); discriminate H
                | intros (props' & E & H); injection E as <-;
                  rewrite Hspec in H; discriminate H]).
  - split; [intros (fault & H); discriminate H |].
    intros (props' & E & H). injection E as <-.
    rewrite Hspec in H. discriminate H.
Qed.

Lemma sealedSecretInterface_throws_on_null_spec_witness :
  exists fault, validateSealedSecretInterface object_with_null_spec = Throw fault.
Proof.
  apply (proj2 (sealedSecretInterface_throws_on_null_spec object_with_null_spec)).
  eexists. split; reflexivity.
Defined.

(** [validateSealedSecretInterface] returns [true] exactly for an object
    whose [spec] is an object with an [encryptedData] property that is an
    object or [null]. *)
Theorem sealedSecretInterface_accepted (obj : any) :
  validateSealedSecretInterface obj = Normal true
  <-> exists props sp data,
      obj = AObject props
      /\ lookup (js "spec") props = Some (AObject sp)
      /\ lookup (js "encryptedData") sp = Some data
      /\ typeof_object data = true.
Proof.
  unfold validateSealedSecretInterface, and_then.
  destruct obj as [| | b | n | s | | props]; cbn [typeof_object bind];
    try (split; [intros H; discriminate H
                | intros (props & sp & data & H & _); discriminate H]).
  cbn [has_property get_property bind].
  destruct (lookup (js "spec") props) as [spec |] eqn:Hspec.
  - destruct spec as [| | b | n | s | | sp]; cbn [typeof_object bind has_property];
      try (split; [intros H; discriminate H
                  | intros (props' & sp' & data & E & H & _); injection E as <-;
                    rewrite Hspec in H; discriminate H]).
    cbn [get_property bind].
    destruct (lookup (js "encryptedData") sp) as [data |] eqn:Hdata; cbn [bind].
    + split.
      * intros H. exists props, sp, data. repeat split; auto. congruence.
      * intros (props' & sp' & data' & E & H & Hd & Ht). injection E as <-.
        rewrite Hspec in H. injection H as <-. rewrite Hdata in Hd.
        injection Hd as <-. now rewrite Ht.
    + split; [intros H; discriminate H |].
      intros (props' & sp' & data' & E & H & Hd & _). injection E as <-.
      rewrite Hspec in H. injection H as <-. rewrite Hdata in Hd.
      discriminate Hd.
  - split; [intros H; discriminate H |].
    intros (props' & sp' & data & E & H & _). injection E as <-.
    rewrite Hspec in H. discriminate H.
Qed.

Lemma sealedSecretInterface_accepted_witness :
  validateSealedSecretInterface object_with_null_data = Normal true.
Proof.
  apply (proj2 (sealedSecretInterface_accepted object_with_null_data)).
  eexists _, _, ANull. repeat split.
Defined.

End ValidatorsMore.

(* ================================================================== *)
(** ** More of [src/lib/retry.ts] *)
(* ================================================================== *)

Module RetryMore.
Import Js Types Retry RetrySpec.

Section Runs.

Variables T St : Type.
Variable operation : St -> completion (Promise (Result T value)) * St.
Variable random_draws : nat -> Q.

Local Abbreviation attempts := (attempts operation random_draws).
Local Abbreviation retryWithBackoff := (retryWithBackoff operation random_draws).
Local Abbreviation invoke := (invoke operation).
Local Abbreviation drawDelay := (drawDelay random_draws).
Local Abbreviation outcomes := (outcomes operation).
Local Abbreviation state_after := (state_after operation).
Local Abbreviation scheduled_delay := (scheduled_delay random_draws).
Local Abbreviation scheduled_delays := (scheduled_delays random_draws).

Lemma outcomes_app (k j : nat) :
  forall s,
    outcomes (k + j) s = outcomes k s ++ outcomes j (state_after k s).
Proof.
  induction k as [| k IH]; intros s; [reflexivity |].
  cbn [Nat.add]. rewrite !(outcomes_unfold operation).
  cbn [app Retry.state_after]. now rewrite IH.
Qed.

Lemma scheduled_delays_step (opts : RequiredRetryOptions) (a d n : nat) :
  scheduled_delays opts a d (S n)
  = scheduled_delay opts a d :: scheduled_delays opts (S a) (S d) n.
Proof.
  unfold Retry.scheduled_delays. cbn [seq List.map].
  rewrite !Nat.add_0_r. f_equal.
  rewrite <- seq_shift, map_map. apply map_ext. intros i.
  now rewrite !Nat.add_succ_r.
Qed.

Lemma scheduled_delays_without_jitter (opts : RequiredRetryOptions)
      (a d d' n : nat) :
  useJitter opts = false ->
  scheduled_delays opts a d n = scheduled_delays opts a d' n.
Proof.
  intros Hj. unfold Retry.scheduled_delays, Retry.scheduled_delay.
  rewrite Hj. reflexivity.
Qed.

(** One iteration that fails and is not the last, with the world it leaves. *)
Lemma attempts_step (opts : RequiredRetryOptions) (fuel : nat)
      (a : nat) (errors : list jsstring) (w : World St) :
  Z.of_nat a < maxAttempts opts ->
  Z.of_nat a <> maxAttempts opts - 1 ->
  succeeded (fst (invoke w)) = false ->
  attempts opts (S fuel) (Z.of_nat a) errors w
  = attempts opts fuel (Z.of_nat (S a))
      (errors ++ [attempt_line (Z.of_nat a)
                    (recorded_message (fst (invoke w)))])
      {| op_state := snd (operation (op_state w));
         calls := S (calls w);
         slept := scheduled_delay opts a (drawn w) :: slept w;
         drawn := if useJitter opts then S (drawn w) else drawn w |}.
Proof.
  intros Hlt Hlast Hfail.
  apply Z.ltb_lt in Hlt. apply Z.eqb_neq in Hlast.
  cbn [Retry.attempts]. rewrite Hlt.
  rewrite (invoke_unfold operation) in *. cbn [fst] in Hfail.
  replace (Z.of_nat (S a)) with (Z.of_nat a + 1) by lia.
  unfold Retry.scheduled_delay.
  destruct (bind (fst (operation (op_state w))) await)
    as [[v | error] | error]; [discriminate Hfail | |];
    rewrite Hlast; unfold Retry.drawDelay;
    cbn [drawn op_state calls slept];
    destruct (useJitter opts); reflexivity.
Qed.

(** What a run of the loop from attempt [a] does, whatever the operation:
    it invokes the operation [k] times, sleeps after each invocation but
    the last, and stops at the first success or after the last attempt. *)
Lemma attempts_run (opts : RequiredRetryOptions) (fuel : nat) :
  forall (a : nat) (errors : list jsstring) (w w' : World St)
         (r : Result T jsstring),
    attempts opts fuel (Z.of_nat a) errors w = Some (r, w') ->
    exists k : nat,
      calls w' = (calls w + k)%nat
      /\ op_state w' = state_after k (op_state w)
      /\ (k <= Z.to_nat (maxAttempts opts - Z.of_nat a))%nat
      /\ (Z.of_nat a < maxAttempts opts -> (1 <= k)%nat)
      /\ slept w'
         = rev (scheduled_delays opts a (drawn w) (pred k)) ++ slept w
      /\ drawn w'
         = (drawn w + if useJitter opts then pred k else 0)%nat
      /\ match r with
         | Ok v =>
             exists pre,
               outcomes k (op_state w) = pre ++ [Normal (Ok v)]
               /\ existsb (@succeeded T) pre = false
         | Err m =>
             k = Z.to_nat (maxAttempts opts - Z.of_nat a)
             /\ existsb (@succeeded T) (outcomes k (op_state w)) = false
             /\ m = failure_message opts
                      (errors ++ numbered (Z.of_nat a)
                                   (map (@recorded_message T)
                                        (outcomes k (op_state w))))
         end.
Proof.
  induction fuel as [| fuel IH]; intros a errors w w' r Hrun.
  - cbn [Retry.attempts] in Hrun.
    destruct (Z.ltb_spec (Z.of_nat a) (maxAttempts opts)) as [Hlt | Hge];
      [discriminate Hrun |].
    injection Hrun as <- <-. exists 0%nat. cbn.
    rewrite Nat.add_0_r, app_nil_r.
    repeat split; try lia. destruct (useJitter opts); lia.
  - destruct (Z.ltb_spec (Z.of_nat a) (maxAttempts opts)) as [Hlt | Hge].
    + destruct (succeeded (fst (invoke w))) eqn:Hs.
      * (* success at this attempt *)
        destruct (fst (invoke w)) as [[v | error] | error] eqn:Hc;
          try discriminate Hs.
        rewrite (@attempts_success _ _ operation random_draws opts fuel
                   (Z.of_nat a) errors w v Hlt Hc) in Hrun.
        injection Hrun as <- <-. exists 1%nat.
        rewrite (invoke_unfold operation) in *. cbn [fst snd] in *.
        cbn [calls op_state slept drawn pred Retry.state_after].
        unfold Retry.scheduled_delays. cbn [seq List.map rev app].
        rewrite (outcomes_unfold operation). cbn [Retry.outcomes].
        repeat split; try lia.
        -- destruct (useJitter opts); lia.
        -- exists []. rewrite Hc. split; reflexivity.
      * destruct (Z.eq_dec (Z.of_nat a) (maxAttempts opts - 1)) as [Hlast | Hlast].
        -- (* the last attempt fails *)
           rewrite (@attempts_last_failure _ _ operation random_draws opts
                      fuel (Z.of_nat a) errors w Hlast Hs) in Hrun.
           injection Hrun as <- <-. exists 1%nat.
           rewrite (invoke_unfold operation) in *. cbn [fst snd] in *.
           cbn [calls op_state slept drawn pred Retry.state_after].
           unfold Retry.scheduled_delays. cbn [seq List.map rev app].
           rewrite (outcomes_unfold operation).
           cbn [Retry.outcomes existsb List.map numbered].
           rewrite Hs. repeat split; try lia.
           destruct (useJitter opts); lia.
        -- (* a failure with attempts left *)
           rewrite (attempts_step opts fuel a errors w Hlt Hlast Hs) in Hrun.
           apply IH in Hrun.
           destruct Hrun as (k & Hc & Ho & Hk & Hk1 & Hsl & Hd & Hr).
           cbn [calls op_state slept drawn] in *.
           assert (H1 : (1 <= k)%nat) by (apply Hk1; lia).
           exists (S k). rewrite Hc, Ho, Hsl, Hd.
           cbn [pred Retry.state_after].
           rewrite (outcomes_unfold operation).
           rewrite (invoke_unfold operation) in Hs, Hr. cbn [fst] in Hs, Hr.
           destruct k as [| k']; [lia |]. cbn [pred] in *.
           rewrite scheduled_delays_step. cbn [rev].
           rewrite <- app_assoc. cbn [app].
           repeat split; try lia.
           ++ f_equal. f_equal.
              destruct (useJitter opts) eqn:Hj; [reflexivity |].
              now apply scheduled_delays_without_jitter.
           ++ destruct (useJitter opts); lia.
           ++ destruct r as [v | m].
              ** destruct Hr as (pre & Hpre & Hnone).
                 exists (bind (fst (operation (op_state w))) await :: pre).
                 rewrite Hpre. cbn [app existsb]. rewrite Hs, Hnone. auto.
              ** destruct Hr as (Hkk & Hnone & Hm).
                 cbn [existsb List.map numbered]. rewrite Hs, Hnone.
                 repeat split; try lia.
                 rewrite Hm, <- app_assoc. cbn [app].
                 replace (Z.of_nat (S a)) with (Z.of_nat a + 1) by lia.
                 reflexivity.
    + cbn [Retry.attempts] in Hrun.
      apply Z.ltb_ge in Hge. rewrite Hge in Hrun.
      injection Hrun as <- <-. exists 0%nat. cbn.
      rewrite Nat.add_0_r, app_nil_r. apply Z.ltb_ge in Hge.
      repeat split; try lia. destruct (useJitter opts); lia.
Qed.

Lemma retry_run (options : RetryOptions) (w : World St) :
  let opts := spread DEFAULT_RETRY_OPTIONS options in
  exists (r : Result T jsstring) (w' : World St) (k : nat),
    retryWithBackoff options w = Some (r, w')
    /\ calls w' = (calls w + k)%nat
    /\ op_state w' = state_after k (op_state w)
    /\ (k <= Z.to_nat (maxAttempts opts))%nat
    /\ (0 < maxAttempts opts -> (1 <= k)%nat)
    /\ slept w' = rev (scheduled_delays opts 0 (drawn w) (pred k)) ++ slept w
    /\ drawn w' = (drawn w + if useJitter opts then pred k else 0)%nat
    /\ match r with
       | Ok v =>
           exists pre,
             outcomes k (op_state w) = pre ++ [Normal (Ok v)]
             /\ existsb (@succeeded T) pre = false
       | Err m =>
           k = Z.to_nat (maxAttempts opts)
           /\ existsb (@succeeded T) (outcomes k (op_state w)) = false
       end.
Proof.
  intros opts.
  destruct (retryWithBackoff_returns operation random_draws options w)
    as (r & w' & Hrun).
  exists r, w'. unfold Retry.retryWithBackoff in Hrun |- *. fold opts in Hrun |- *.
  rewrite Hrun.
  apply (attempts_run opts _ 0 [] w) in Hrun.
  destruct Hrun as (k & Hc & Ho & Hk & Hk1 & Hsl & Hd & Hr).
  exists k. cbn [Z.of_nat] in *. rewrite Z.sub_0_r in *.
  repeat split; auto.
  destruct r as [v | m]; [exact Hr | tauto].
Qed.

(** The delays slept are those of the schedule, in order: after the
    failed attempt [i] the delay [calculateDelay(i, opts)], computed with
    the next random number when jitter is on; with jitter one random number
    is drawn per delay, without jitter none. *)
Theorem delays_follow_the_schedule (options : RetryOptions) (w : World St) :
  let opts := spread DEFAULT_RETRY_OPTIONS options in
  exists r w' (k : nat),
    retryWithBackoff options w = Some (r, w')
    /\ calls w' = (calls w + k)%nat
    /\ slept w'
       = rev (List.map
                (fun i =>
                   calculateDelay (Z.of_nat i) opts
                     (if useJitter opts then random_draws (drawn w + i)
                      else 0%Q))
                (seq 0 (pred k)))
         ++ slept w
    /\ drawn w' = (drawn w + if useJitter opts then pred k else 0)%nat.
Proof.
  intros opts.
  destruct (retry_run options w)
    as (r & w' & k & Hrun & Hc & _ & _ & _ & Hsl & Hd & _).
  exists r, w', k. repeat split; auto.
Qed.

End Runs.

Section Stubs.
Import Samples.

Example delays_without_jitter :
  retryWithBackoff alwaysFail half (plain_attempts 6) fresh
  = Some (Err (failure_message
                 (spread DEFAULT_RETRY_OPTIONS (plain_attempts 6))
                 (numbered 0 (repeat (js "persistent error") 6))),
          {| op_state := 6%nat; calls := 6;
             slept := [10000; 8000; 4000; 2000; 1000]; drawn := 0 |}).
Proof. vm_compute. reflexivity. Qed.

End Stubs.


(** *** Which HTTP errors are retryable *)

Section Http.
Import Regex RegexFacts SearchFacts Samples.

Lemma matches_server_error (m : jsstring) :
  Matches server_error_re m
  <-> exists d1 d2,
      m = [53%N; d1; d2] /\ digit d1 = true /\ digit d2 = true.
Proof.
  unfold server_error_re. rewrite matches_cat. split.
  - intros (s1 & s2 & -> & H1 & H2).
    apply matches_chr in H1. destruct H1 as (c & -> & Hc).
    apply N.eqb_eq in Hc. subst c.
    apply matches_cat in H2. destruct H2 as (t1 & t2 & -> & Hd1 & Hd2).
    apply matches_chr in Hd1, Hd2.
    destruct Hd1 as (d1 & -> & Hd1). destruct Hd2 as (d2 & -> & Hd2).
    exists d1, d2. auto.
  - intros (d1 & d2 & -> & Hd1 & Hd2).
    exists [53%N], [d1; d2]. split; [reflexivity |].
    split; [apply MChr; reflexivity |].
    change [d1; d2] with ([d1] ++ [d2]). apply MCat; now apply MChr.
Qed.

(** The tests for "503" and "504" never decide: a message with one of
    them in it has a 5 followed by two digits. *)
Lemma isRetryableHttpError_reduced (error : Error) :
  isRetryableHttpError error
  = Regex.search server_error_re (message error)
    || includes (message error) (js "429")
    || includes (message error) (js "408").
Proof.
  unfold isRetryableHttpError.
  destruct (search server_error_re (message error)) eqn:Hs; [reflexivity |].
  assert (Hno : forall d, digit d = true ->
                          includes (message error) [53%N; 48%N; d] = false).
  { intros d Hd. apply not_true_is_false. intros Hin.
    apply includes_spec in Hin. destruct Hin as (before & rest & E).
    assert (Hyes : search server_error_re (message error) = true).
    { apply search_spec. exists before, [53%N; 48%N; d], rest.
      split; [exact E |]. apply matches_server_error.
      exists 48%N, d. auto. }
    congruence. }
  change (js "503") with [53%N; 48%N; 51%N].
  change (js "504") with [53%N; 48%N; 52%N].
  rewrite !Hno by reflexivity. cbn [orb]. now rewrite !orb_false_r.
Qed.

(** [isRetryableHttpError] looks for substrings, not for a status code: it
    holds exactly when the message has, anywhere in it, a 5 followed by two
    digits, or "429", or "408". *)
Theorem isRetryableHttpError_is_a_substring_test (error : Error) :
  isRetryableHttpError error = true
  <-> (exists before d1 d2 rest,
         message error = before ++ [53%N; d1; d2] ++ rest
         /\ digit d1 = true /\ digit d2 = true)
      \/ includes (message error) (js "429") = true
      \/ includes (message error) (js "408") = true.
Proof.
  rewrite isRetryableHttpError_reduced, !orb_true_iff, search_spec.
  split.
  - intros [[(before & m & rest & E & Hm) | H] | H]; auto.
    apply matches_server_error in Hm. destruct Hm as (d1 & d2 & -> & Hd).
    left. exists before, d1, d2, rest. tauto.
  - intros [(before & d1 & d2 & rest & E & Hd) | [H | H]]; auto.
    left. left. exists before, [53%N; d1; d2], rest.
    split; [exact E |]. apply matches_server_error. eauto.
Qed.

Lemma isRetryableHttpError_is_a_substring_test_witness :
  isRetryableHttpError slow_request = true.
Proof.
  apply (proj2 (isRetryableHttpError_is_a_substring_test slow_request)).
  left. exists (js "Request took 1"), 48%N, 48%N, (js " ms").
  repeat split.
Defined.

(** A message that quotes the message of a retryable error is itself
    retryable, for instance the aggregate of [retryWithBackoff] or a
    message with a prefix. *)
Theorem quoting_keeps_http_error_retryable (inner outer : Error) :
  includes (message outer) (message inner) = true ->
  isRetryableHttpError inner = true ->
  isRetryableHttpError outer = true.
Proof.
  intros Hin. rewrite !isRetryableHttpError_reduced, !orb_true_iff.
  intros [[H | H] | H].
  - left. left. exact (search_in_part _ _ _ Hin H).
  - left. right. exact (includes_trans _ _ _ Hin H).
  - right. exact (includes_trans _ _ _ Hin H).
Qed.

Lemma quoting_keeps_http_error_retryable_witness :
  isRetryableHttpError quoted_unavailable = true.
Proof.
  apply (quoting_keeps_http_error_retryable unavailable quoted_unavailable);
    vm_compute; reflexivity.
Defined.

End Http.

End RetryMore.

(* ================================================================== *)
(** ** Properties of the rows of [EncryptDialog.tsx] *)
(* ================================================================== *)

Module EncryptDialogSpec.
Import Js EncryptDialog.

(** Filtering out one index, counting from [first]. *)
Lemma filter_index_drops {A} (index : Z) (rows : list A) :
  forall first,
    filter_index (fun i => negb (i =? index)) first rows
    = if (first <=? index) && (index <? first + Z.of_nat (List.length rows))
      then firstn (Z.to_nat (index - first)) rows
             ++ skipn (S (Z.to_nat (index - first))) rows
      else rows.
Proof.
  induction rows as [| r rows IH]; intros first; cbn [filter_index List.length].
  - destruct ((first <=? index) && _); [| reflexivity].
    now rewrite firstn_nil, skipn_nil.
  - rewrite IH. destruct (Z.eqb_spec first index) as [-> | Hne]; cbn [negb].
    + assert (H1 : (index + 1 <=? index) = false) by (apply Z.leb_gt; lia).
      assert (H2 : (index <=? index) = true) by (apply Z.leb_le; lia).
      assert (H3 : (index <? index + Z.of_nat (S (List.length rows))) = true)
        by (apply Z.ltb_lt; lia).
      rewrite H1, H2, H3, Z.sub_diag. reflexivity.
    + set (c1 := (first + 1 <=? index)
                 && (index <? first + 1 + Z.of_nat (List.length rows))).
      set (c2 := (first <=? index)
                 && (index <? first + Z.of_nat (S (List.length rows)))).
      assert (Hc : c1 = c2).
      { subst c1 c2.
        destruct (Z.leb_spec (first + 1) index);
          destruct (Z.leb_spec first index);
          destruct (Z.ltb_spec index (first + 1 + Z.of_nat (List.length rows)));
          destruct (Z.ltb_spec index (first + Z.of_nat (S (List.length rows))));
          try reflexivity; lia. }
      rewrite Hc. destruct c2 eqn:E2; [| reflexivity].
      subst c2. apply andb_true_iff in E2. destruct E2 as [E2 _].
      apply Z.leb_le in E2.
      replace (Z.to_nat (index - first))
        with (S (Z.to_nat (index - (first + 1)))) by lia.
      reflexivity.
Qed.

Lemma at_index_in_range {A} (index : Z) (rows : list A) :
  (exists r, at_index index rows = Some r)
  <-> 0 <= index < Z.of_nat (List.length rows).
Proof.
  unfold at_index. destruct (Z.ltb_spec index 0) as [Hneg | Hpos].
  - split; [intros (r & H); discriminate H | lia].
  - split.
    + intros (r & H). assert (Hs : nth_error rows (Z.to_nat index) <> None)
        by congruence.
      apply nth_error_Some in Hs. lia.
    + intros H. destruct (nth_error rows (Z.to_nat index)) eqn:E; [eauto |].
      apply nth_error_None in E. lia.
Qed.

(** [handleRemoveKeyValue] takes out the row at the index and keeps the
    others in order; with an index at which there is no row it changes
    nothing. *)
Theorem handleRemoveKeyValue_removes_one_row (index : Z) (rows : list Row) :
  handleRemoveKeyValue index rows
  = match at_index index rows with
    | Some _ =>
        firstn (Z.to_nat index) rows ++ skipn (S (Z.to_nat index)) rows
    | None => rows
    end.
Proof.
  unfold handleRemoveKeyValue. rewrite filter_index_drops, Z.sub_0_r.
  cbn [Z.add].
  pose proof (at_index_in_range index rows) as Hr.
  destruct (at_index index rows) as [r |].
  - destruct (proj1 Hr (ex_intro _ r eq_refl)) as [H0 H1].
    apply Z.leb_le in H0. apply Z.ltb_lt in H1. now rewrite H0, H1.
  - destruct (Z.leb_spec 0 index); [| reflexivity].
    destruct (Z.ltb_spec index (Z.of_nat (List.length rows))); [| reflexivity].
    destruct (proj2 Hr) as (r & Hsome); [lia | discriminate Hsome].
Qed.

Lemma remove_length (index : Z) (rows : list Row) :
  0 <= index < Z.of_nat (List.length rows) ->
  List.length (handleRemoveKeyValue index rows) = pred (List.length rows).
Proof.
  intros [H0 H1]. unfold handleRemoveKeyValue.
  rewrite filter_index_drops, Z.sub_0_r. cbn [Z.add].
  apply Z.leb_le in H0. apply Z.ltb_lt in H1. rewrite H0, H1. cbn [andb].
  apply Z.ltb_lt in H1.
  rewrite length_app, length_firstn, length_skipn. lia.
Qed.

(** The delete button is disabled when there is one row; so deleting a
    row whose button is enabled never leaves the form without rows. *)
Theorem enabled_delete_leaves_a_row (index : Z) (rows : list Row) :
  delete_enabled rows = true ->
  0 <= index < Z.of_nat (List.length rows) ->
  handleRemoveKeyValue index rows <> [].
Proof.
  intros Hen Hin Hnil.
  apply (f_equal (@List.length Row)) in Hnil.
  rewrite remove_length in Hnil by exact Hin. cbn in Hnil.
  unfold delete_enabled in Hen. apply negb_true_iff, Z.eqb_neq in Hen. lia.
Qed.

Lemma enabled_delete_leaves_a_row_witness :
  handleRemoveKeyValue 0 Samples.two_rows <> [].
Proof.
  apply (@enabled_delete_leaves_a_row 0 Samples.two_rows);
    [reflexivity | cbn; lia].
Defined.

(** Adding a row and deleting it again gives the rows back. *)
Theorem add_then_remove_restores (rows : list Row) :
  handleRemoveKeyValue (Z.of_nat (List.length rows)) (handleAddKeyValue rows)
  = rows.
Proof.
  unfold handleRemoveKeyValue, handleAddKeyValue.
  rewrite filter_index_drops, Z.sub_0_r, Nat2Z.id, length_app. cbn [Z.add List.length].
  destruct (Z.leb_spec 0 (Z.of_nat (List.length rows))); [| lia].
  destruct (Z.ltb_spec (Z.of_nat (List.length rows))
                       (Z.of_nat (List.length rows + 1))); [| lia].
  cbn [andb].
  rewrite firstn_app, firstn_all, Nat.sub_diag. cbn [firstn].
  rewrite skipn_app, skipn_all2 by lia.
  replace (S (List.length rows) - List.length rows)%nat with 1%nat by lia.
  cbn [skipn app]. now rewrite !app_nil_r.
Qed.

(** What [handleCreate] submits: rows left blank do not count (adding a
    row and leaving it blank changes nothing, the untouched form submits no
    pair at all), and every pair submitted has a key or a value. *)
Theorem validKeyValues_skips_blank_rows (rows : list Row) :
  validKeyValues (handleAddKeyValue rows) = validKeyValues rows
  /\ validKeyValues initial_keyValues = []
  /\ Forall (fun kv => kv_key kv <> [] \/ kv_value kv <> [])
            (validKeyValues rows).
Proof.
  unfold validKeyValues, handleAddKeyValue. split; [| split].
  - rewrite filter_app. cbn. now rewrite app_nil_r.
  - reflexivity.
  - apply Forall_forall. intros kv Hin.
    apply in_map_iff in Hin. destruct Hin as (r & <- & Hr).
    apply filter_In in Hr. destruct Hr as [_ Hr]. cbn.
    apply orb_true_iff in Hr.
    destruct Hr as [Hr | Hr]; [left | right];
      intros E; rewrite E in Hr; discriminate Hr.
Qed.

(** *** Editing a row *)

Lemma change_at_twice (f g : Row -> Row) (rows : list Row) :
  forall i,
    change_at f i (change_at g i rows) = change_at (fun r => f (g r)) i rows.
Proof.
  induction rows as [| r rows IH]; intros [| i]; cbn; try reflexivity.
  now rewrite IH.
Qed.

Lemma change_at_same (f : Row -> Row) (rows : list Row) :
  (forall r, f r = r) -> forall i, change_at f i rows = rows.
Proof.
  intros Hf. induction rows as [| r rows IH]; intros [| i]; cbn;
    try reflexivity.
  - now rewrite Hf.
  - now rewrite IH.
Qed.

Lemma change_at_length (f : Row -> Row) (rows : list Row) :
  forall i, List.length (change_at f i rows) = List.length rows.
Proof.
  induction rows as [| r rows IH]; intros [| i]; cbn; auto.
Qed.

Lemma change_at_map {B} (proj : Row -> B) (f : Row -> Row)
      (rows : list Row) :
  (forall r, proj (f r) = proj r) ->
  forall i, List.map proj (change_at f i rows) = List.map proj rows.
Proof.
  intros Hf. induction rows as [| r rows IH]; intros [| i]; cbn;
    try reflexivity.
  - now rewrite Hf.
  - now rewrite IH.
Qed.

Lemma change_at_nth (f : Row -> Row) (rows : list Row) :
  forall i, nth_error (change_at f i rows) i = option_map f (nth_error rows i).
Proof.
  induction rows as [| r rows IH]; intros [| i]; cbn; auto.
Qed.

Lemma update_row_result (f : Row -> Row) (index : Z) (rows : list Row) :
  update_row f index rows
  = match at_index index rows with
    | Some _ => Normal (change_at f (Z.to_nat index) rows)
    | None =>
        Throw (VError (new_TypeError
                         (js "Cannot set properties of undefined")))
    end.
Proof. reflexivity. Qed.

(** Toggling the visibility of a row twice gives the rows back. *)
Theorem toggleShowValue_twice (index : Z) (rows : list Row) :
  0 <= index < Z.of_nat (List.length rows) ->
  bind (toggleShowValue index rows) (toggleShowValue index) = Normal rows.
Proof.
  intros Hin. unfold toggleShowValue. rewrite update_row_result.
  destruct (proj2 (at_index_in_range index rows) Hin) as (r & ->).
  cbn [bind]. rewrite update_row_result.
  assert (Hin' : 0 <= index
                 < Z.of_nat (List.length
                               (change_at
                                  (fun r0 => {| key := key r0; value := value r0;
                                                showValue := negb (showValue r0) |})
                                  (Z.to_nat index) rows)))
    by now rewrite change_at_length.
  destruct (proj2 (at_index_in_range index _) Hin') as (r' & ->).
  rewrite change_at_twice. f_equal. apply change_at_same.
  intros [k v s]. cbn. now rewrite negb_involutive.
Qed.

Lemma toggleShowValue_twice_witness :
  bind (toggleShowValue 1 Samples.two_rows) (toggleShowValue 1)
  = Normal Samples.two_rows.
Proof.
  apply (@toggleShowValue_twice 1 Samples.two_rows). cbn. lia.
Defined.

(** Editing the key of a row puts the new key at that row and changes no
    value and no visibility flag; editing the value of a row changes no
    key and no visibility flag; with an index at which there is no row
    either throws. *)
Theorem edits_touch_one_field (index : Z) (text : jsstring)
        (rows : list Row) :
  match at_index index rows with
  | Some _ =>
      exists keyed valued,
        handleKeyChange index text rows = Normal keyed
        /\ handleValueChange index text rows = Normal valued
        /\ option_map key (at_index index keyed) = Some text
        /\ option_map value (at_index index valued) = Some text
        /\ List.map value keyed = List.map value rows
        /\ List.map showValue keyed = List.map showValue rows
        /\ List.map key valued = List.map key rows
        /\ List.map showValue valued = List.map showValue rows
  | None =>
      (exists fault, handleKeyChange index text rows = Throw fault)
      /\ (exists fault, handleValueChange index text rows = Throw fault)
  end.
Proof.
  unfold handleKeyChange, handleValueChange. rewrite !update_row_result.
  destruct (at_index index rows) as [r |] eqn:Hat; [| split; eauto].
  eexists _, _. split; [reflexivity |]. split; [reflexivity |].
  assert (Hpos : (index <? 0) = false)
    by (unfold at_index in Hat; destruct (index <? 0);
        [discriminate Hat | reflexivity]).
  unfold at_index in *. rewrite Hpos in *.
  rewrite !change_at_nth, Hat. cbn [option_map key value].
  repeat split; apply change_at_map; reflexivity.
Qed.

End EncryptDialogSpec.

(* ================================================================== *)
(** ** [retryWithBackoff] for every [maxAttempts] and every fault *)
(* ================================================================== *)

Module RetryWideSpec.
Import Js Types RetryWide.

Section Loop.

Variables T St : Type.
Variable number_text : Q -> jsstring.
Variable maxAttempts : option number.
Variable operation : St -> raising (settled (Result T fault)) * St.

Local Abbreviation run := (attempts number_text maxAttempts operation).
Local Abbreviation message_of := (failure_message number_text maxAttempts).

Lemma verdicts_unfold (n : nat) (w : World St) :
  verdicts operation (S n) (op_state w)
  = verdict_of (fst (invoke operation w))
      :: verdicts operation n (op_state (snd (invoke operation w))).
Proof.
  unfold invoke. simpl. destruct (operation (op_state w)); reflexivity.
Qed.

Lemma later_0 (w : World St) : later operation 0 0 w = w.
Proof.
  destruct w; unfold later; simpl. now rewrite !Nat.add_0_r.
Qed.

Lemma later_invoke (n m : nat) (w : World St) :
  later operation n m (snd (invoke operation w)) = later operation (S n) m w.
Proof.
  unfold later, invoke. simpl.
  destruct (operation (op_state w)); simpl. f_equal. lia.
Qed.

Lemma later_sleep (n m : nat) (w : World St) :
  later operation n m (sleep w) = later operation n (S m) w.
Proof.
  unfold later, sleep. simpl. f_equal. lia.
Qed.

Lemma state_after_S (n : nat) (s : St) :
  state_after operation (S n) s = snd (operation (state_after operation n s)).
Proof.
  revert s; induction n as [|n IH]; intros s; [reflexivity|].
  change (state_after operation (S (S n)) s)
    with (state_after operation (S n) (snd (operation s))).
  now rewrite IH.
Qed.

Lemma invoke_later (n m : nat) (w : World St) :
  snd (invoke operation (later operation n m w)) = later operation (S n) m w.
Proof.
  unfold invoke, later. cbn [op_state calls sleeps]. rewrite state_after_S.
  destruct (operation (state_after operation n (op_state w))).
  cbn [snd]. f_equal. lia.
Qed.

Lemma sleep_later (n m : nat) (w : World St) :
  sleep (later operation n m w) = later operation n (S m) w.
Proof.
  unfold later, sleep. cbn [op_state calls sleeps]. f_equal. lia.
Qed.

Lemma verdicts_app (n k : nat) (s : St) :
  verdicts operation (n + k) s
  = verdicts operation n s ++ verdicts operation k (state_after operation n s).
Proof.
  revert s; induction n as [|n IH]; intros s; simpl; [reflexivity|].
  destruct (operation s) as [c s']; simpl. now rewrite IH.
Qed.

Lemma verdicts_length (n : nat) (s : St) :
  List.length (verdicts operation n s) = n.
Proof.
  revert s; induction n as [|n IH]; intros s; simpl; [reflexivity|].
  destruct (operation s); simpl. now rewrite IH.
Qed.

Lemma exists_last_or_nil (A : Type) (l : list A) :
  l = [] \/ exists l' x, l = l' ++ [x].
Proof.
  destruct l as [|a l]; [now left|right].
  destruct (@exists_last _ (a :: l)) as (l' & x & E); [discriminate|].
  now exists l', x.
Qed.

Lemma numbered_app (a : Z) (ms : list jsstring) (m : jsstring) :
  numbered a (ms ++ [m])
  = numbered a ms ++ [attempt_line (a + Z.of_nat (List.length ms)) m].
Proof.
  revert a; induction ms as [|x ms IH]; intros a;
    cbn [numbered app List.length].
  - now rewrite Z.add_0_r.
  - rewrite IH, Nat2Z.inj_succ. do 3 f_equal. f_equal. lia.
Qed.

(** The verdict of an attempt, outcome by outcome.  When [String] throws
    on the error of an [Err] result, the throw happens in the [try] block,
    and the [catch] clause records what was thrown. *)
Lemma verdict_by_outcome :
  (forall x : T, verdict_of (Returns (Ok x)) = Succeeded x)
  /\ (forall s, verdict_of (Returns (@Err T _ (Plain (VString s))))
                = Recorded s)
  /\ (forall v, verdict_of (Returns (@Err T _ (Plain v)))
                = Recorded (String_ v))
  /\ (forall g, verdict_of (Returns (@Err T _ (Unprintable g)))
                = caught_verdict T g)
  /\ (forall g, verdict_of (@Raises (Result T fault) g) = caught_verdict T g)
  /\ (forall e, caught_verdict T (Plain (VError e)) = Recorded (message e))
  /\ (forall v, (forall e, v <> VError e) ->
                caught_verdict T (Plain v) = Recorded (String_ v))
  /\ (forall g, caught_verdict T (Unprintable g) = Escaped g).
Proof.
  repeat split; try reflexivity.
  - intros [s|e|r]; reflexivity.
  - intros [s|e|r] H; try reflexivity. now destruct (H e).
Qed.

(** One turn of the loop, by the verdict of its attempt. *)
Lemma attempts_turn (fuel : nat) (a : Z) (errors : list jsstring)
      (w : World St) :
  below a maxAttempts = true ->
  run (S fuel) a errors w
  = match verdict_of (fst (invoke operation w)) with
    | Succeeded v => Some (Resolves (Ok v), snd (invoke operation w))
    | Recorded m =>
        if is_last a maxAttempts
        then Some (Resolves (Err (message_of (errors ++ [attempt_line a m]))),
                   snd (invoke operation w))
        else run fuel (plus_one a) (errors ++ [attempt_line a m])
                 (sleep (snd (invoke operation w)))
    | Escaped g => Some (Rejects g, snd (invoke operation w))
    end.
Proof.
  intros Hb. cbn [attempts]. rewrite Hb.
  destruct (invoke operation w) as [o w']. cbn [fst snd].
  destruct o as [[v|e]|f]; cbn [verdict_of]; unfold caught_verdict.
  - reflexivity.
  - destruct (returned_message e) as [m|g]; [reflexivity|].
    destruct (thrown_message g); reflexivity.
  - destruct (thrown_message f); reflexivity.
Qed.

Lemma attempts_exit (fuel : nat) (a : Z) (errors : list jsstring)
      (w : World St) :
  below a maxAttempts = false ->
  run fuel a errors w = Some (Resolves (Err (message_of errors)), w).
Proof.
  intros Hb. destruct fuel; cbn [attempts]; now rewrite Hb.
Qed.

(** Attempts that record a message and are not the last one. *)
Lemma attempts_recorded (ms : list jsstring) :
  forall (fuel : nat) (a : Z) (errors : list jsstring) (w : World St),
  0 <= a ->
  a + Z.of_nat (List.length ms) <= counter_limit ->
  (forall i, a <= i < a + Z.of_nat (List.length ms) ->
             below i maxAttempts = true /\ is_last i maxAttempts = false) ->
  verdicts operation (List.length ms) (op_state w) = List.map (@Recorded T) ms ->
  run (List.length ms + fuel) a errors w
  = run fuel (a + Z.of_nat (List.length ms)) (errors ++ numbered a ms)
        (later operation (List.length ms) (List.length ms) w).
Proof.
  induction ms as [|m ms IH]; intros fuel a errors w Ha Hlim Hi Hv.
  - cbn [List.length numbered Nat.add Z.of_nat].
    now rewrite Z.add_0_r, app_nil_r, later_0.
  - cbn [List.length] in *. rewrite verdicts_unfold in Hv.
    cbn [List.map] in Hv. injection Hv as Hv1 Hv2.
    destruct (Hi a) as [Hb Hl]; [lia|].
    cbn [Nat.add]. rewrite attempts_turn by exact Hb. rewrite Hv1, Hl.
    assert (Hp : plus_one a = a + 1).
    { unfold plus_one. destruct (Z.ltb_spec a counter_limit); lia. }
    rewrite Hp, IH; try lia; try exact Hv2.
    + rewrite later_sleep, later_invoke. cbn [numbered].
      rewrite <- app_assoc. cbn [app]. f_equal. lia.
    + intros i Hr. apply Hi. lia.
Qed.

(** Every invariant of the loop below is proved for a limit that behaves
    as a count [n] of turns, of which the last one ends the loop before its
    sleep exactly when [whole] holds. *)
Variable n : Z.
Variable whole : bool.
Hypothesis n_small : n <= counter_limit.
Hypothesis below_n : forall i, 0 <= i -> below i maxAttempts = (i <? n).
Hypothesis is_last_n :
  forall i, 0 <= i -> is_last i maxAttempts = whole && (i =? n - 1).

Lemma attempts_until_stop (ms : list jsstring) (v : verdict T)
      (fuel : nat) (w : World St) :
  Z.of_nat (List.length ms) < n ->
  verdicts operation (S (List.length ms)) (op_state w)
  = List.map (@Recorded T) ms ++ [v] ->
  run (List.length ms + S fuel) 0 [] w
  = match v with
    | Succeeded x =>
        Some (Resolves (Ok x),
              later operation (S (List.length ms)) (List.length ms) w)
    | Escaped g =>
        Some (Rejects g,
              later operation (S (List.length ms)) (List.length ms) w)
    | Recorded m =>
        if whole && (Z.of_nat (List.length ms) =? n - 1)
        then Some (Resolves (Err (message_of (numbered 0 (ms ++ [m])))),
                   later operation (S (List.length ms)) (List.length ms) w)
        else run fuel (Z.of_nat (List.length ms) + 1)
                 (numbered 0 (ms ++ [m]))
                 (later operation (S (List.length ms))
                        (S (List.length ms)) w)
    end.
Proof.
  intros Hlt Hv.
  replace (S (List.length ms)) with (List.length ms + 1)%nat in Hv by lia.
  rewrite verdicts_app in Hv.
  set (w' := later operation (List.length ms) (List.length ms) w).
  change (state_after operation (List.length ms) (op_state w))
    with (op_state w') in Hv.
  rewrite verdicts_unfold in Hv. cbn [verdicts] in Hv.
  apply app_inj_tail in Hv as [Hms Hv].
  rewrite (@attempts_recorded ms (S fuel) 0 [] w); try lia; try exact Hms.
  - fold w'. cbn [Z.add app].
    assert (Hb : below (Z.of_nat (List.length ms)) maxAttempts = true).
    { rewrite below_n by lia. apply Z.ltb_lt. lia. }
    rewrite attempts_turn by exact Hb. rewrite Hv.
    unfold w'. rewrite invoke_later, sleep_later.
    destruct v as [x|m|g]; try reflexivity.
    rewrite is_last_n by lia. rewrite numbered_app. cbn [Z.add].
    replace (plus_one (Z.of_nat (List.length ms)))
      with (Z.of_nat (List.length ms) + 1); [reflexivity|].
    unfold plus_one.
    destruct (Z.ltb_spec (Z.of_nat (List.length ms)) counter_limit); lia.
  - intros i Hi. rewrite below_n, is_last_n by lia. split.
    + apply Z.ltb_lt. lia.
    + apply andb_false_iff. right. apply Z.eqb_neq. lia.
Qed.

Lemma run_stopped (ms : list jsstring) (v : verdict T)
      (p : settled (Result T jsstring)) (fuel : nat) (w : World St) :
  Z.of_nat (List.length ms) < n ->
  verdicts operation (S (List.length ms)) (op_state w)
  = List.map (@Recorded T) ms ++ [v] ->
  settles v p ->
  (List.length ms < fuel)%nat ->
  run fuel 0 [] w
  = Some (p, later operation (S (List.length ms)) (List.length ms) w).
Proof.
  intros Hlt Hv Hp Hfuel.
  replace fuel with (List.length ms + S (fuel - S (List.length ms)))%nat
    by lia.
  rewrite (@attempts_until_stop ms v _ w Hlt Hv).
  destruct v; cbn [settles] in Hp; [now subst|contradiction|now subst].
Qed.

Lemma run_exhausted (ms : list jsstring) (fuel : nat) (w : World St) :
  List.length ms = Z.to_nat n ->
  verdicts operation (List.length ms) (op_state w)
  = List.map (@Recorded T) ms ->
  (List.length ms <= fuel)%nat ->
  run fuel 0 [] w
  = Some (Resolves (Err (message_of (numbered 0 ms))),
          later operation (List.length ms)
                (if whole then pred (List.length ms) else List.length ms) w).
Proof.
  intros Hn Hv Hfuel.
  destruct (exists_last_or_nil ms) as [->|(ms' & m & ->)].
  - cbn [List.length] in *. rewrite attempts_exit.
    + cbn [numbered]. destruct whole; cbn [pred]; now rewrite later_0.
    + rewrite below_n by lia. apply Z.ltb_ge. lia.
  - rewrite length_app in *. cbn [List.length] in *.
    replace (List.length ms' + 1)%nat with (S (List.length ms')) in * by lia.
    rewrite map_app in Hv. cbn [List.map] in Hv.
    replace fuel with (List.length ms' + S (fuel - S (List.length ms')))%nat
      by lia.
    rewrite (@attempts_until_stop ms' (Recorded m) _ w); [|lia|exact Hv].
    replace (Z.of_nat (List.length ms') =? n - 1) with true
      by (symmetry; apply Z.eqb_eq; lia).
    destruct whole; cbn [andb pred]; [reflexivity|].
    rewrite attempts_exit; [reflexivity|].
    rewrite below_n by lia. apply Z.ltb_ge. lia.
Qed.

End Loop.

Section Limits.

(** A finite [maxAttempts] up to [counter_limit] behaves as the count
    [Qceiling q] of turns; the last of them ends the loop before its sleep
    exactly when [q] is an integer. *)
Lemma ceiling_small (q : Q) :
  (q <= inject_Z counter_limit)%Q -> Qceiling q <= counter_limit.
Proof.
  intros H. apply Qceiling_resp_le in H. now rewrite Qceiling_Z in H.
Qed.

Lemma below_finite (q : Q) (i : Z) :
  below i (Some (Finite q)) = (i <? Qceiling q).
Proof.
  cbn [below]. destruct (Z.ltb_spec i (Qceiling q)) as [H|H].
  - apply negb_true_iff. apply not_true_is_false. intros E.
    apply Qle_bool_iff, Qceiling_resp_le in E. rewrite Qceiling_Z in E. lia.
  - apply negb_false_iff. apply Qle_bool_iff.
    apply Qle_trans with (inject_Z (Qceiling q)); [apply Qle_ceiling|].
    now rewrite <- Zle_Qle.
Qed.

Lemma is_last_finite (q : Q) (i : Z) :
  (q <= inject_Z counter_limit)%Q ->
  is_last i (Some (Finite q))
  = Qeq_bool q (inject_Z (Qceiling q)) && (i =? Qceiling q - 1).
Proof.
  intros Hq. cbn [is_last].
  replace (Qle_bool q (inject_Z counter_limit)) with true
    by (symmetry; now apply Qle_bool_iff).
  apply eq_true_iff_eq. rewrite andb_true_iff, !Qeq_bool_iff, Z.eqb_eq.
  split.
  - intros E.
    assert (E' : (q == inject_Z (i + 1))%Q).
    { rewrite inject_Z_plus, E. ring. }
    assert (Hc : Qceiling q = i + 1).
    { rewrite E'. apply Qceiling_Z. }
    split; [now rewrite Hc|lia].
  - intros [E ->]. unfold Z.sub. rewrite inject_Z_plus, <- E.
    reflexivity.
Qed.

End Limits.

Section Classes.

Variables T St : Type.
Variable operation : St -> raising (settled (Result T fault)) * St.

(** The first attempts either all record a message, or one of them is the
    first that does not. *)
Lemma verdicts_classified (n : nat) :
  forall s : St,
  (exists ms, List.length ms = n
              /\ verdicts operation n s = List.map (@Recorded T) ms)
  \/ (exists ms v, (List.length ms < n)%nat
                   /\ verdicts operation (S (List.length ms)) s
                      = List.map (@Recorded T) ms ++ [v]
                   /\ (succeeded v || escaped v = true)).
Proof.
  induction n as [|n IH]; intros s.
  - left. now exists [].
  - pose proof (IH (snd (operation s))) as IH'.
    remember (verdict_of (and_next (fst (operation s)) awaited)) as v0 eqn:Ev.
    assert (Hstep : forall k, verdicts operation (S k) s
                              = v0 :: verdicts operation k (snd (operation s))).
    { intros k. subst v0. cbn [verdicts].
      destruct (operation s); reflexivity. }
    destruct v0 as [x|m|g].
    + right. exists [], (Succeeded x). cbn [List.length List.map app].
      rewrite Hstep. cbn [verdicts]. repeat split. lia.
    + destruct IH' as [(ms & Hl & Hv)|(ms & v & Hl & Hv & Hs)].
      * left. exists (m :: ms). cbn [List.length List.map].
        rewrite Hstep, Hv. split; [lia|reflexivity].
      * right. exists (m :: ms), v. cbn [List.length List.map app].
        rewrite Hstep, Hv. repeat split; [lia|exact Hs].
    + right. exists [], (Escaped g). cbn [List.length List.map app].
      rewrite Hstep. cbn [verdicts]. repeat split. lia.
Qed.

Lemma verdicts_prefix (k n : nat) (s : St) :
  (k <= n)%nat ->
  exists rest, verdicts operation n s = verdicts operation k s ++ rest.
Proof.
  intros H. replace n with (k + (n - k))%nat by lia.
  rewrite verdicts_app. eauto.
Qed.

End Classes.

Section Finite.

Variables T St : Type.
Variable number_text : Q -> jsstring.
Variable operation : St -> raising (settled (Result T fault)) * St.
Variable q : Q.
Hypothesis q_small : (q <= inject_Z counter_limit)%Q.

Local Abbreviation run := (attempts number_text (Some (Finite q)) operation).

Lemma run_stopped_finite (ms : list jsstring) (v : verdict T)
      (p : settled (Result T jsstring)) (fuel : nat) (w : World St) :
  Z.of_nat (List.length ms) < Qceiling q ->
  verdicts operation (S (List.length ms)) (op_state w)
  = List.map (@Recorded T) ms ++ [v] ->
  settles v p ->
  (List.length ms < fuel)%nat ->
  run fuel 0 [] w
  = Some (p, later operation (S (List.length ms)) (List.length ms) w).
Proof.
  apply run_stopped with (whole := Qeq_bool q (inject_Z (Qceiling q))).
  - now apply ceiling_small.
  - intros i _. apply below_finite.
  - intros i _. now apply is_last_finite.
Qed.

Lemma run_exhausted_finite (ms : list jsstring) (fuel : nat) (w : World St) :
  List.length ms = Z.to_nat (Qceiling q) ->
  verdicts operation (List.length ms) (op_state w)
  = List.map (@Recorded T) ms ->
  (List.length ms <= fuel)%nat ->
  run fuel 0 [] w
  = Some (Resolves (Err (failure_message number_text (Some (Finite q))
                                         (numbered 0 ms))),
          later operation (List.length ms)
                (if Qeq_bool q (inject_Z (Qceiling q))
                 then pred (List.length ms) else List.length ms) w).
Proof.
  apply run_exhausted.
  - now apply ceiling_small.
  - intros i _. apply below_finite.
  - intros i _. now apply is_last_finite.
Qed.

End Finite.

Lemma recorded_length (T St : Type)
      (operation : St -> raising (settled (Result T fault)) * St)
      (n : nat) (s : St) (ms : list jsstring) :
  verdicts operation n s = List.map (@Recorded T) ms -> List.length ms = n.
Proof.
  intros H. apply (f_equal (@List.length _)) in H.
  now rewrite verdicts_length, length_map in H.
Qed.

Lemma recorded_not_succeeded (T : Type) (ms : list jsstring) :
  existsb (@succeeded T) (List.map (@Recorded T) ms) = false.
Proof.
  induction ms as [|m ms IH]; [reflexivity|exact IH].
Qed.

(** When each of the first [N] attempts fails in a way that yields a
    message (an [Err] result, a throw or a rejection whose text can be
    computed) and [maxAttempts] is the integer [N] up to [2^53], the promise
    resolves to [Err] of the aggregate of the [N] numbered lines, after [N]
    invocations and [N - 1] sleeps. *)
Theorem recorded_failures_exhaust_attempts
        (T St : Type) (number_text : Q -> jsstring)
        (operation : St -> raising (settled (Result T fault)) * St)
        (given : property number) (N : Z) (ms : list jsstring)
        (fuel : nat) (w : World St) :
  merged_maxAttempts given = Some (Finite (inject_Z N)) ->
  N <= counter_limit ->
  verdicts operation (Z.to_nat N) (op_state w) = List.map (@Recorded T) ms ->
  (Z.to_nat N <= fuel)%nat ->
  retryWithBackoff number_text operation given fuel w
  = Some (Resolves (Err (js "Operation failed after "
                          ++ number_text (inject_Z N) ++ js " attempts:" ++ LF
                          ++ join LF (numbered 0 ms))),
          later operation (Z.to_nat N) (pred (Z.to_nat N)) w).
Proof.
  intros Hm HN Hv Hfuel. unfold retryWithBackoff. rewrite Hm.
  pose proof (recorded_length _ _ _ _ Hv) as Hlen.
  assert (Hq : (inject_Z N <= inject_Z counter_limit)%Q)
    by now rewrite <- Zle_Qle.
  rewrite (@run_exhausted_finite T St number_text operation (inject_Z N) Hq
             ms fuel w).
  - rewrite Qceiling_Z, Qeq_bool_refl, Hlen. reflexivity.
  - now rewrite Qceiling_Z.
  - now rewrite Hlen.
  - lia.
Qed.

Lemma recorded_failures_exhaust_attempts_witness :
  retryWithBackoff Samples.integer_text
                   (plain_operation Samples.alwaysRejects) Absent 3
                   Samples.untouched
  = Some (Resolves (Err (js "Operation failed after 3 attempts:" ++ LF
                          ++ js "Attempt 1: Network error" ++ LF
                          ++ js "Attempt 2: Network error" ++ LF
                          ++ js "Attempt 3: Network error")),
          {| op_state := 3%nat; calls := 3; sleeps := 2 |}).
Proof.
  apply (@recorded_failures_exhaust_attempts jsstring nat
           Samples.integer_text (plain_operation Samples.alwaysRejects)
           Absent 3
           [js "Network error"; js "Network error"; js "Network error"]
           3 Samples.untouched).
  - reflexivity.
  - vm_compute. discriminate.
  - reflexivity.
  - vm_compute. lia.
Defined.

(** With a finite [maxAttempts] up to [2^53]: when the attempts
    before the first one that records no message are fewer than
    [maxAttempts], that attempt settles the promise.  A success resolves it
    to [Ok]; a fault on which [String] throws inside the [catch] clause
    rejects it with what [String] threw, so that no [Result] is returned.
    The operation has then been invoked once more than the function has
    slept. *)
Theorem first_success_or_escape_settles
        (T St : Type) (number_text : Q -> jsstring)
        (operation : St -> raising (settled (Result T fault)) * St)
        (given : property number) (q : Q) (ms : list jsstring)
        (v : verdict T) (p : settled (Result T jsstring))
        (fuel : nat) (w : World St) :
  merged_maxAttempts given = Some (Finite q) ->
  (q <= inject_Z counter_limit)%Q ->
  (inject_Z (Z.of_nat (List.length ms)) < q)%Q ->
  verdicts operation (S (List.length ms)) (op_state w)
  = List.map (@Recorded T) ms ++ [v] ->
  settles v p ->
  (List.length ms < fuel)%nat ->
  retryWithBackoff number_text operation given fuel w
  = Some (p, later operation (S (List.length ms)) (List.length ms) w).
Proof.
  intros Hm Hq Hlt Hv Hp Hfuel. unfold retryWithBackoff. rewrite Hm.
  apply run_stopped_finite with (v := v); try assumption.
  apply Z.ltb_lt. rewrite <- below_finite. cbn [below].
  apply negb_true_iff, not_true_is_false. intros E.
  apply Qle_bool_iff in E. apply (Qlt_irrefl q).
  now apply Qle_lt_trans with (inject_Z (Z.of_nat (List.length ms))).
Qed.

Lemma first_success_or_escape_settles_witness :
  retryWithBackoff Samples.integer_text Samples.busyThenBare Absent 3
                   Samples.untouched
  = Some (Rejects (Plain (VError (new_TypeError
                     (js "Cannot convert object to primitive value")))),
          {| op_state := 2%nat; calls := 2; sleeps := 1 |}).
Proof.
  apply (@first_success_or_escape_settles unit nat Samples.integer_text
           Samples.busyThenBare Absent 3 [js "busy"]
           (Escaped (Plain (VError (new_TypeError
              (js "Cannot convert object to primitive value")))))
           _ 3 Samples.untouched).
  - reflexivity.
  - vm_compute. discriminate.
  - reflexivity.
  - reflexivity.
  - reflexivity.
  - vm_compute. lia.
Defined.

(** With a finite [maxAttempts] up to [2^53], of which the loop makes
    at most [ceil(maxAttempts)] turns: when none of these attempts raises a
    fault on which [String] throws, the promise resolves, and its result is
    [Ok] exactly when one of these attempts succeeds. *)
Theorem resolves_ok_iff_an_attempt_succeeds
        (T St : Type) (number_text : Q -> jsstring)
        (operation : St -> raising (settled (Result T fault)) * St)
        (given : property number) (q : Q) (fuel : nat) (w : World St) :
  merged_maxAttempts given = Some (Finite q) ->
  (q <= inject_Z counter_limit)%Q ->
  existsb (@escaped T)
          (verdicts operation (Z.to_nat (Qceiling q)) (op_state w)) = false ->
  (Z.to_nat (Qceiling q) <= fuel)%nat ->
  exists r w',
    retryWithBackoff number_text operation given fuel w
    = Some (Resolves r, w')
    /\ ok r = existsb (@succeeded T)
                      (verdicts operation (Z.to_nat (Qceiling q)) (op_state w)).
Proof.
  intros Hm Hq Hesc Hfuel. unfold retryWithBackoff. rewrite Hm.
  destruct (verdicts_classified operation (Z.to_nat (Qceiling q)) (op_state w))
    as [(ms & Hl & Hv)|(ms & v & Hl & Hv & Hs)].
  - rewrite <- Hl in Hv.
    rewrite (@run_exhausted_finite T St number_text operation q Hq ms fuel w);
      [|exact Hl|exact Hv|lia].
    do 2 eexists. split; [reflexivity|].
    rewrite <- Hl, Hv, recorded_not_succeeded. reflexivity.
  - destruct (verdicts_prefix operation (op_state w) Hl) as [rest Hrest].
    rewrite Hv in Hrest. rewrite Hrest in Hesc |- *.
    rewrite !existsb_app in Hesc |- *. cbn [existsb] in Hesc |- *.
    destruct v as [x|m|g]; cbn [succeeded escaped orb] in *.
    + rewrite (@run_stopped_finite T St number_text operation q Hq ms
                 (Succeeded x) (Resolves (Ok x)) fuel w);
        [|lia|exact Hv|reflexivity|lia].
      do 2 eexists. split; [reflexivity|].
      cbn [ok]. now rewrite orb_true_r.
    + discriminate.
    + rewrite orb_true_r in Hesc. discriminate.
Qed.

Lemma resolves_ok_iff_an_attempt_succeeds_witness :
  exists r w',
    retryWithBackoff Samples.integer_text Samples.downThenUp Absent 3
                     Samples.untouched
    = Some (Resolves r, w')
    /\ ok r = true.
Proof.
  destruct (@resolves_ok_iff_an_attempt_succeeds unit nat
              Samples.integer_text Samples.downThenUp Absent 3 3
              Samples.untouched) as (r & w' & Hrun & Hok).
  - reflexivity.
  - vm_compute. discriminate.
  - reflexivity.
  - vm_compute. lia.
  - exists r, w'. split; [exact Hrun|exact Hok].
Defined.

(** With a finite [maxAttempts] up to [2^53] the promise settles
    after [k] invocations of the operation, [k] at most
    [max(0, ceil(maxAttempts))].  The function has then slept [k - 1] times
    (not at all for [k = 0]), except when [maxAttempts] is not an integer
    and all [ceil(maxAttempts)] attempts failed: then it has slept after
    the last attempt too, [k] times. *)
Theorem invocations_and_sleeps_are_bounded
        (T St : Type) (number_text : Q -> jsstring)
        (operation : St -> raising (settled (Result T fault)) * St)
        (given : property number) (q : Q) (fuel : nat) (w : World St) :
  merged_maxAttempts given = Some (Finite q) ->
  (q <= inject_Z counter_limit)%Q ->
  (Z.to_nat (Qceiling q) <= fuel)%nat ->
  exists p k z,
    retryWithBackoff number_text operation given fuel w
    = Some (p, later operation k z w)
    /\ (k <= Z.to_nat (Qceiling q))%nat
    /\ (z = pred k
        \/ (z = k /\ k = Z.to_nat (Qceiling q)
            /\ Qeq_bool q (inject_Z (Qceiling q)) = false)).
Proof.
  intros Hm Hq Hfuel. unfold retryWithBackoff. rewrite Hm.
  destruct (verdicts_classified operation (Z.to_nat (Qceiling q)) (op_state w))
    as [(ms & Hl & Hv)|(ms & v & Hl & Hv & Hs)].
  - rewrite <- Hl in Hv.
    rewrite (@run_exhausted_finite T St number_text operation q Hq ms fuel w);
      [|exact Hl|exact Hv|lia].
    do 3 eexists. split; [reflexivity|]. split; [lia|].
    destruct (Qeq_bool q (inject_Z (Qceiling q))); [now left|right].
    repeat split. exact Hl.
  - assert (Hp : exists p, settles v p).
    { destruct v as [x|m|g]; cbn [succeeded escaped orb] in Hs;
        [eexists; reflexivity|discriminate|eexists; reflexivity]. }
    destruct Hp as [p Hp].
    rewrite (@run_stopped_finite T St number_text operation q Hq ms v p fuel w);
      [|lia|exact Hv|exact Hp|lia].
    do 3 eexists. split; [reflexivity|]. split; [lia|]. now left.
Qed.

Lemma invocations_and_sleeps_are_bounded_witness :
  exists p k z,
    retryWithBackoff Samples.integer_text Samples.downThenUp Absent 3
                     Samples.untouched
    = Some (p, later Samples.downThenUp k z Samples.untouched)
    /\ (k <= 3)%nat
    /\ (z = pred k \/ (z = k /\ k = 3%nat /\ Qeq_bool 3 3 = false)).
Proof.
  destruct (@invocations_and_sleeps_are_bounded unit nat
              Samples.integer_text Samples.downThenUp Absent 3 3
              Samples.untouched) as (p & k & z & Hrun & Hk & Hz).
  - reflexivity.
  - vm_compute. discriminate.
  - vm_compute. lia.
  - exists p, k, z. split; [exact Hrun|]. split; [exact Hk|exact Hz].
Defined.

(** With a [maxAttempts] up to [2^53] that is not an integer no
    attempt is the last one: when each of the first [ceil(maxAttempts)]
    attempts fails with a message, the function sleeps after each of them,
    also after the final one, and then resolves to [Err] of an aggregate
    with [ceil(maxAttempts)] lines under a header that prints
    [maxAttempts]. *)
Theorem fractional_limit_sleeps_after_every_attempt
        (T St : Type) (number_text : Q -> jsstring)
        (operation : St -> raising (settled (Result T fault)) * St)
        (given : property number) (q : Q) (ms : list jsstring)
        (fuel : nat) (w : World St) :
  merged_maxAttempts given = Some (Finite q) ->
  (q <= inject_Z counter_limit)%Q ->
  Qeq_bool q (inject_Z (Qceiling q)) = false ->
  verdicts operation (Z.to_nat (Qceiling q)) (op_state w)
  = List.map (@Recorded T) ms ->
  (Z.to_nat (Qceiling q) <= fuel)%nat ->
  retryWithBackoff number_text operation given fuel w
  = Some (Resolves (Err (js "Operation failed after "
                          ++ number_text q ++ js " attempts:" ++ LF
                          ++ join LF (numbered 0 ms))),
          later operation (Z.to_nat (Qceiling q)) (Z.to_nat (Qceiling q)) w).
Proof.
  intros Hm Hq Hfrac Hv Hfuel. unfold retryWithBackoff. rewrite Hm.
  pose proof (recorded_length _ _ _ _ Hv) as Hlen.
  rewrite (@run_exhausted_finite T St number_text operation q Hq ms fuel w).
  - rewrite Hfrac, Hlen. reflexivity.
  - exact Hlen.
  - now rewrite Hlen.
  - lia.
Qed.

Lemma fractional_limit_sleeps_after_every_attempt_witness :
  retryWithBackoff Samples.text_of_2_5 Samples.alwaysDown
                   (Present (Some (Finite (5 # 2)))) 3 Samples.untouched
  = Some (Resolves (Err (js "Operation failed after 2.5 attempts:" ++ LF
                          ++ js "Attempt 1: down" ++ LF
                          ++ js "Attempt 2: down" ++ LF
                          ++ js "Attempt 3: down")),
          {| op_state := 3%nat; calls := 3; sleeps := 3 |}).
Proof.
  apply (@fractional_limit_sleeps_after_every_attempt unit nat
           Samples.text_of_2_5 Samples.alwaysDown
           (Present (Some (Finite (5 # 2)))) (5 # 2)
           [js "down"; js "down"; js "down"] 3 Samples.untouched).
  - reflexivity.
  - vm_compute. discriminate.
  - reflexivity.
  - reflexivity.
  - vm_compute. lia.
Defined.

(** When the first comparison [0 < maxAttempts] is false, which it is
    for a [maxAttempts] that is zero, negative, [NaN], [-Infinity] or
    [undefined], the operation is not invoked and the function does not
    sleep: the promise resolves to [Err] of the header alone, in which
    [maxAttempts] is printed as the template literal prints it. *)
Theorem no_turn_when_first_comparison_fails
        (T St : Type) (number_text : Q -> jsstring)
        (operation : St -> raising (settled (Result T fault)) * St)
        (given : property number) (fuel : nat) (w : World St) :
  below 0 (merged_maxAttempts given) = false ->
  retryWithBackoff number_text operation given fuel w
  = Some (Resolves (Err (js "Operation failed after "
                          ++ limit_text number_text (merged_maxAttempts given)
                          ++ js " attempts:" ++ LF)),
          w).
Proof.
  intros Hb. unfold retryWithBackoff. rewrite attempts_exit by exact Hb.
  unfold failure_message. cbn [join]. now rewrite app_nil_r.
Qed.

Lemma no_turn_when_first_comparison_fails_witness :
  retryWithBackoff Samples.integer_text Samples.alwaysDown (Present None) 0
                   Samples.untouched
  = Some (Resolves (Err (js "Operation failed after undefined attempts:"
                          ++ LF)),
          Samples.untouched).
Proof.
  apply (@no_turn_when_first_comparison_fails unit nat Samples.integer_text
           Samples.alwaysDown (Present None) 0 Samples.untouched).
  reflexivity.
Defined.

(** With [maxAttempts] [Infinity] and an operation of which every
    attempt fails with a message, the promise never settles: whatever the
    number of turns allowed, the loop has not returned. *)
Theorem unbounded_limit_never_settles
        (T St : Type) (number_text : Q -> jsstring)
        (operation : St -> raising (settled (Result T fault)) * St)
        (given : property number) :
  merged_maxAttempts given = Some Infinity ->
  (forall s, exists m,
      verdict_of (and_next (fst (operation s)) awaited) = @Recorded T m) ->
  forall (fuel : nat) (w : World St),
    retryWithBackoff number_text operation given fuel w = None.
Proof.
  intros Hm Hop fuel w. unfold retryWithBackoff. rewrite Hm.
  generalize (@nil jsstring) as errors. generalize 0 as a.
  revert w. induction fuel as [|fuel IH]; intros w a errors.
  - reflexivity.
  - rewrite attempts_turn by reflexivity.
    destruct (Hop (op_state w)) as [m Hv].
    replace (verdict_of (fst (invoke operation w))) with (@Recorded T m).
    + cbn [is_last]. apply IH.
    + rewrite <- Hv. unfold invoke.
      destruct (operation (op_state w)); reflexivity.
Qed.

Lemma unbounded_limit_never_settles_witness :
  retryWithBackoff Samples.integer_text Samples.alwaysDown
                   (Present (Some Infinity)) 1000 Samples.untouched
  = None.
Proof.
  apply (@unbounded_limit_never_settles unit nat Samples.integer_text
           Samples.alwaysDown (Present (Some Infinity))).
  - reflexivity.
  - intros s. exists (js "down"). reflexivity.
Defined.

Section Agreement.

Variables T St : Type.
Variable operation : St -> completion (Promise (Result T value)) * St.
Variable random_draws : nat -> Q.
Variable number_text : Q -> jsstring.

(** Where [Retry] applies, that is for a [maxAttempts] that is an integer
    up to [2^53], printed with all its digits, and for errors that [String]
    renders, its loop and the loop of [RetryWide] are the same loop. *)
Lemma loops_agree (opts : Retry.RequiredRetryOptions) :
  Retry.maxAttempts opts <= counter_limit ->
  number_text (inject_Z (Retry.maxAttempts opts))
  = show_int (Retry.maxAttempts opts) ->
  forall (fuel : nat) (attempt : Z) (errors : list jsstring)
         (w : Retry.World St),
    option_map (@counted_result T St)
               (Retry.attempts operation random_draws opts fuel attempt
                               errors w)
    = attempts number_text
               (Some (Finite (inject_Z (Retry.maxAttempts opts))))
               (plain_operation operation) fuel attempt errors (counted w).
Proof.
  intros Hsmall Htext.
  assert (Hq : (inject_Z (Retry.maxAttempts opts)
                <= inject_Z counter_limit)%Q) by now rewrite <- Zle_Qle.
  assert (Hexit : forall errors,
             Retry.failure_message opts errors
             = failure_message number_text
                 (Some (Finite (inject_Z (Retry.maxAttempts opts)))) errors).
  { intros errors. unfold Retry.failure_message, failure_message, limit_text.
    now rewrite Htext. }
  induction fuel as [|fuel IH]; intros attempt errors w.
  - cbn [Retry.attempts attempts]. rewrite below_finite, Qceiling_Z.
    destruct (attempt <? Retry.maxAttempts opts); [reflexivity|].
    cbn [option_map]. unfold counted_result. cbn [fst snd].
    now rewrite Hexit.
  - cbn [Retry.attempts attempts]. rewrite below_finite, Qceiling_Z.
    destruct (Z.ltb_spec attempt (Retry.maxAttempts opts)) as [Hlt|Hge];
      [|cbn [option_map]; unfold counted_result; cbn [fst snd];
        now rewrite Hexit].
    rewrite (is_last_finite attempt Hq), Qceiling_Z, Qeq_bool_refl.
    cbn [andb].
    assert (Hline : forall m, Retry.attempt_line attempt m
                              = attempt_line attempt m).
    { intros m. unfold Retry.attempt_line, attempt_line, plus_one.
      destruct (Z.ltb_spec attempt counter_limit); [reflexivity|lia]. }
    assert (Hnext : plus_one attempt = attempt + 1).
    { unfold plus_one.
      destruct (Z.ltb_spec attempt counter_limit); [reflexivity|lia]. }
    assert (Hsleep : forall w1 : Retry.World St,
               counted (Retry.sleep
                          (fst (Retry.drawDelay random_draws attempt opts w1))
                          (snd (Retry.drawDelay random_draws attempt opts w1)))
               = sleep (counted w1)).
    { intros w1. unfold Retry.drawDelay.
      destruct (Retry.useJitter opts); reflexivity. }
    unfold Retry.invoke, invoke, plain_operation. cbn [counted op_state].
    destruct (operation (Retry.op_state w)) as [c s].
    rewrite Hnext.
    destruct c as [[[v|error]|reason]|error];
      cbn [bind await and_next awaited plain_result]; [reflexivity| | | ].
    1: replace (returned_message (Plain error))
         with (Returns (Retry.returned_message error))
         by (destruct error; reflexivity).
    2: replace (thrown_message (Plain reason))
         with (Returns (Retry.thrown_message reason))
         by (destruct reason; reflexivity).
    3: replace (thrown_message (Plain error))
         with (Returns (Retry.thrown_message error))
         by (destruct error; reflexivity).
    all: rewrite Hline; destruct (attempt =? Retry.maxAttempts opts - 1);
      [cbn [option_map]; unfold counted_result; cbn [fst snd];
       now rewrite Hexit|].
    all: destruct (Retry.drawDelay random_draws attempt opts _) as [delay w1]
           eqn:Ed;
      rewrite IH; f_equal;
      pose proof (Hsleep {| Retry.op_state := s;
                            Retry.calls := S (Retry.calls w);
                            Retry.slept := Retry.slept w;
                            Retry.drawn := Retry.drawn w |}) as Hs;
      rewrite Ed in Hs; exact Hs.
Qed.

(** So what is proved of [Retry.retryWithBackoff] holds of the wider
    function on these inputs. *)
Lemma retryWithBackoff_agrees (options : Retry.RetryOptions)
      (w : Retry.World St) :
  let opts := Retry.spread Retry.DEFAULT_RETRY_OPTIONS options in
  Retry.maxAttempts opts <= counter_limit ->
  number_text (inject_Z (Retry.maxAttempts opts))
  = show_int (Retry.maxAttempts opts) ->
  option_map (@counted_result T St)
             (Retry.retryWithBackoff operation random_draws options w)
  = retryWithBackoff number_text (plain_operation operation)
                     (given_maxAttempts options)
                     (Z.to_nat (Retry.maxAttempts opts)) (counted w).
Proof.
  intros opts Hsmall Htext.
  unfold Retry.retryWithBackoff, retryWithBackoff. fold opts.
  replace (merged_maxAttempts (given_maxAttempts options))
    with (Some (Finite (inject_Z (Retry.maxAttempts opts)))).
  - now apply loops_agree.
  - unfold given_maxAttempts, opts, Retry.spread. cbn [Retry.maxAttempts].
    destruct (Retry.opt_maxAttempts options); reflexivity.
Qed.

End Agreement.

End RetryWideSpec.
